(** * A shallow embedding of [vector.h]: [RawMemory<T>] and [Vector<T>]

    The element type [T] is abstract: the container only sees it through its
    constructors, its destructor and its move assignment.  A slot of a buffer
    is either raw (uninitialised) memory or holds a live object, and the
    container's job is to keep the live objects in the slots [[0, size_)] of
    its buffer.

    - A pointer into a buffer is its offset from the buffer's base, an
      integer that may fall outside the buffer; [size_t] values are integers
      reduced modulo [2 ^ 64] where the code computes them.
    - [std::uninitialized_copy_n], [std::destroy_n] and the other algorithms
      of [<memory>] and [<algorithm>] are given by what the standard says of
      them: a range outside the buffer, the destruction or the use of an
      object that is not live are undefined behaviour, and an algorithm that
      builds objects destroys the ones it built when a constructor throws.
    - [std::move] and [std::move_backward] take a pair of iterators.  When
      the second precedes the first, the standard leaves the call undefined,
      and a library whose loop runs [last - first] times while that count is
      positive, as the one of libstdc++, touches nothing and returns: which
      of the two holds is a parameter of the platform.
    - An operation returns an [outcome]: a normal return, a C++ exception
      leaving the function, a failed [assert], or undefined behaviour. *)

From Stdlib Require Import ZArith Lia Bool ZifyBool.
From stdpp Require Import base list.

Local Open Scope Z_scope.

(** ** Outcomes *)

(** [E] is what is left behind when an exception unwinds out of the call,
    [A] what a normal return produces. *)
Inductive outcome (E A : Type) : Type :=
| Ok (a : A)
| Throw (e : E)
| AssertFail
| Undefined.

Arguments Ok {E A} a.
Arguments Throw {E A} e.
Arguments AssertFail {E A}.
Arguments Undefined {E A}.

Definition bind {E A B} (m : outcome E A) (k : A -> outcome E B) : outcome E B :=
  match m with
  | Ok a => k a
  | Throw e => Throw e
  | AssertFail => AssertFail
  | Undefined => Undefined
  end.

(** What the enclosing frame still owns once the exception has unwound. *)
Definition unwind {E E' A} (f : E -> E') (m : outcome E A) : outcome E' A :=
  match m with
  | Ok a => Ok a
  | Throw e => Throw (f e)
  | AssertFail => AssertFail
  | Undefined => Undefined
  end.

(** [try { m } catch (...) { h }]: the handler's normal return is the normal
    return of the whole statement, as there is no [throw;] in it unless [h]
    says so. *)
Definition try_catch {E A} (m : outcome E A) (h : E -> outcome E A) : outcome E A :=
  match m with
  | Throw e => h e
  | _ => m
  end.

Notation "'let*' x ':=' m 'in' k" := (bind m (fun x => k))
  (at level 10, x pattern, m at level 100, k at level 200).

(** ** [size_t] *)

Definition SIZE_WIDTH : Z := 64.

(** Conversion to [size_t], the result of unsigned arithmetic. *)
Definition to_size_t (z : Z) : Z := z mod 2 ^ SIZE_WIDTH.

(** ** The element type and the platform *)

(** What the container needs to know of [T]: its size, its value
    initialisation [T()], which objects make the copy or the move constructor
    throw, the state a moved-from object is left in, and the two type traits
    the code branches on; a move constructor declared [noexcept] does not
    throw.  Assignment and value initialisation are taken not to throw. *)
Class Elem (T : Type) := {
  sizeof : Z;
  sizeof_pos : 0 < sizeof;
  value_init : T;
  copy_throws : T -> bool;
  move_throws : T -> bool;
  moved_from : T -> T;
  is_nothrow_move_constructible : bool;
  is_copy_constructible : bool;
  nothrow_move : is_nothrow_move_constructible = true -> forall x, move_throws x = false;
}.

(** The build, its heap and its library: whether [operator new] serves a
    request of that many bytes, whether [assert] is compiled out, and whether
    [std::move] and [std::move_backward] return without touching anything
    when the end of the range they are given precedes its start. *)
Class Platform := {
  operator_new_ok : Z -> bool;
  NDEBUG : bool;
  reversed_range_is_empty : bool;
}.

Definition assert `{Platform} {E A} (c : bool) (k : outcome E A) : outcome E A :=
  if NDEBUG || c then k else AssertFail.

(** ** Memory blocks and the standard algorithms over them *)

(** A block of memory is the list of its slots: [None] is raw memory,
    [Some x] a live object of value [x]. *)
Abbreviation block T := (list (option T)) (only parsing).

Section Memory.
Context {T : Type} `{Elem T} `{Platform}.

(** [[first, first + n)] lies within the block: what every algorithm below
    requires of the ranges it is given. *)
Definition valid_range (b : block T) (first n : Z) : bool :=
  (0 <=? first) && (0 <=? n) && (first + n <=? Z.of_nat (length b)).

(** [*p] for an object pointer [p = base + i]. *)
Definition deref {E} (b : block T) (i : Z) : outcome E T :=
  if valid_range b i 1 then
    match b !! Z.to_nat i with
    | Some (Some x) => Ok x
    | _ => Undefined
    end
  else Undefined.

(** [new (base + i) T(x)] with an already evaluated [x]. *)
Definition construct_at {E} (b : block T) (i : Z) (x : T) : outcome E (block T) :=
  if valid_range b i 1 then Ok (<[Z.to_nat i := Some x]> b) else Undefined.

(** [*(base + i) = std::move(tmp)]: the target has to be a live object. *)
Definition assign_at {E} (b : block T) (i : Z) (x : T) : outcome E (block T) :=
  let* _ := deref (E:=E) b i in Ok (<[Z.to_nat i := Some x]> b).

Fixpoint clear_range (n i : nat) (b : block T) : block T :=
  match n with
  | O => b
  | S n' => clear_range n' (S i) (<[i := None]> b)
  end.

Fixpoint destroy_loop {E} (n i : nat) (b : block T) : outcome E (block T) :=
  match n with
  | O => Ok b
  | S n' =>
      match b !! i with
      | Some (Some _) => destroy_loop n' (S i) (<[i := None]> b)
      | _ => Undefined
      end
  end.

(** [std::destroy_n(base + first, n)]: ends the lifetime of [n] live
    objects. *)
Definition destroy_n {E} (b : block T) (first n : Z) : outcome E (block T) :=
  if valid_range b first n
  then destroy_loop (Z.to_nat n) (Z.to_nat first) b
  else Undefined.

Fixpoint value_construct_loop (n i : nat) (b : block T) : block T :=
  match n with
  | O => b
  | S n' => value_construct_loop n' (S i) (<[i := Some value_init]> b)
  end.

(** [std::uninitialized_value_construct_n(base + first, n)]. *)
Definition uninitialized_value_construct_n {E} (b : block T) (first n : Z)
  : outcome E (block T) :=
  if valid_range b first n
  then Ok (value_construct_loop (Z.to_nat n) (Z.to_nat first) b)
  else Undefined.

(** The copy loop; [j0] is where the destination range starts, so that the
    objects built so far can be destroyed when a constructor throws. *)
Fixpoint copy_loop (n i j0 j : nat) (src dst : block T)
  : outcome (block T * block T) (block T * block T) :=
  match n with
  | O => Ok (src, dst)
  | S n' =>
      match src !! i with
      | Some (Some x) =>
          if copy_throws x then Throw (src, clear_range (j - j0) j0 dst)
          else copy_loop n' (S i) j0 (S j) src (<[j := Some x]> dst)
      | _ => Undefined
      end
  end.

(** [std::uninitialized_copy_n(src + first, n, dst + d_first)], between two
    different blocks; the result is the source, as it was, and the
    destination. *)
Definition uninitialized_copy_n (src : block T) (first n : Z)
    (dst : block T) (d_first : Z) : outcome (block T * block T) (block T * block T) :=
  if valid_range src first n && valid_range dst d_first n
  then copy_loop (Z.to_nat n) (Z.to_nat first)
         (Z.to_nat d_first) (Z.to_nat d_first) src dst
  else Undefined.

Fixpoint move_construct_loop (n i j0 j : nat) (src dst : block T)
  : outcome (block T * block T) (block T * block T) :=
  match n with
  | O => Ok (src, dst)
  | S n' =>
      match src !! i with
      | Some (Some x) =>
          if move_throws x then Throw (src, clear_range (j - j0) j0 dst)
          else move_construct_loop n' (S i) j0 (S j)
                 (<[i := Some (moved_from x)]> src) (<[j := Some x]> dst)
      | _ => Undefined
      end
  end.

(** [std::uninitialized_move_n(src + first, n, dst + d_first)], between two
    different blocks; the result is the source and the destination. *)
Definition uninitialized_move_n (src : block T) (first n : Z)
    (dst : block T) (d_first : Z) : outcome (block T * block T) (block T * block T) :=
  if valid_range src first n && valid_range dst d_first n
  then move_construct_loop (Z.to_nat n) (Z.to_nat first)
         (Z.to_nat d_first) (Z.to_nat d_first) src dst
  else Undefined.

(** One move assignment [b[j] = std::move(b[i])] inside a block. *)
Definition move_assign_slot (i j : nat) (b : block T) : option (block T) :=
  match b !! i, b !! j with
  | Some (Some x), Some (Some _) =>
      Some (<[j := Some x]> (<[i := Some (moved_from x)]> b))
  | _, _ => None
  end.

Fixpoint move_loop {E} (n i j : nat) (b : block T) : outcome E (block T) :=
  match n with
  | O => Ok b
  | S n' =>
      match move_assign_slot i j b with
      | Some b' => move_loop n' (S i) (S j) b'
      | None => Undefined
      end
  end.

(** A call on a range whose end precedes its start. *)
Definition reversed_range {E} (b : block T) : outcome E (block T) :=
  if reversed_range_is_empty then Ok b else Undefined.

(** [std::move(base + first, base + last, base + d_first)], front to back,
    inside one block. *)
Definition std_move {E} (b : block T) (first last d_first : Z) : outcome E (block T) :=
  let n := last - first in
  if n <? 0 then reversed_range b
  else if valid_range b first n && valid_range b d_first n
  then move_loop (Z.to_nat n) (Z.to_nat first) (Z.to_nat d_first) b
  else Undefined.

Fixpoint move_backward_loop {E} (n i j : nat) (b : block T) : outcome E (block T) :=
  match n with
  | O => Ok b
  | S n' =>
      match move_assign_slot (Nat.pred i) (Nat.pred j) b with
      | Some b' => move_backward_loop n' (Nat.pred i) (Nat.pred j) b'
      | None => Undefined
      end
  end.

(** [std::move_backward(base + first, base + last, base + d_last)], back to
    front, inside one block. *)
Definition move_backward {E} (b : block T) (first last d_last : Z)
  : outcome E (block T) :=
  let n := last - first in
  if n <? 0 then reversed_range b
  else if valid_range b first n && valid_range b (d_last - n) n
  then move_backward_loop (Z.to_nat n) (Z.to_nat last) (Z.to_nat d_last) b
  else Undefined.

Fixpoint copy_assign_loop {E} (n i j : nat) (src dst : block T) : outcome E (block T) :=
  match n with
  | O => Ok dst
  | S n' =>
      match src !! i, dst !! j with
      | Some (Some x), Some (Some _) =>
          copy_assign_loop n' (S i) (S j) src (<[j := Some x]> dst)
      | _, _ => Undefined
      end
  end.

(** [std::copy_n(src + first, n, dst + d_first)] between two different
    blocks: [n] copy assignments, onto live objects. *)
Definition copy_n {E} (src : block T) (first n : Z) (dst : block T) (d_first : Z)
  : outcome E (block T) :=
  if valid_range src first n && valid_range dst d_first n
  then copy_assign_loop (Z.to_nat n) (Z.to_nat first) (Z.to_nat d_first) src dst
  else Undefined.

(** [std::uninitialized_move_n] from a range of [const T]: [std::move] of a
    [const T] lvalue is a [const T&&], which the move constructor does not
    accept and the copy constructor does, so that the objects are copied. *)
Definition uninitialized_move_n_const (src : block T) (first n : Z)
    (dst : block T) (d_first : Z) : outcome (block T * block T) (block T * block T) :=
  uninitialized_copy_n src first n dst d_first.

End Memory.

(** ** [RawMemory<T>] *)

(** [buffer_] points to the allocated block; here it is the block itself, and
    a pointer into it is its offset from the base ([nullptr] with nothing
    behind it is the empty block). *)
Record RawMemory (T : Type) : Type := {
  buffer_ : list (option T);
  capacity_ : Z;
}.

Arguments buffer_ {T} _.
Arguments capacity_ {T} _.

(** ** [Vector<T>] *)

Record Vector (T : Type) : Type := {
  data_ : RawMemory T;
  size_ : Z;
}.

Arguments data_ {T} _.
Arguments size_ {T} _.

Section VectorOps.
Context {T : Type} `{Elem T} `{Platform}.

(** *** RawMemory *)

(** [RawMemory() = default]. *)
Definition RawMemory_default : RawMemory T :=
  {| buffer_ := []; capacity_ := 0 |}.

(** [n != 0 ? operator new(n * sizeof(T)) : nullptr]; the product is
    computed in [size_t], and the block has the slots that fit in the bytes
    obtained. *)
Definition Allocate (n : Z) : outcome unit (block T) :=
  if n =? 0 then Ok []
  else
    let bytes := to_size_t (n * sizeof) in
    if operator_new_ok bytes
    then Ok (replicate (Z.to_nat (bytes / sizeof)) None)
    else Throw tt.

(** [explicit RawMemory(size_t capacity)]. *)
Definition RawMemory_new (capacity : Z) : outcome unit (RawMemory T) :=
  let* b := Allocate capacity in
  Ok {| buffer_ := b; capacity_ := capacity |}.

(** [RawMemory(RawMemory&& other)]: the new object and [other] afterwards. *)
Definition RawMemory_move_ctor (other : RawMemory T) : RawMemory T * RawMemory T :=
  ({| buffer_ := buffer_ other; capacity_ := capacity_ other |},
   {| buffer_ := []; capacity_ := 0 |}).

(** [operator=(RawMemory&& rhs)]; [same] is [this == &rhs].  The result is
    [*this] and [rhs] afterwards. *)
Definition RawMemory_move_assign (same : bool) (this rhs : RawMemory T)
  : RawMemory T * RawMemory T :=
  if negb same then
    ({| buffer_ := buffer_ rhs; capacity_ := capacity_ rhs |},
     {| buffer_ := []; capacity_ := 0 |})
  else (this, rhs).

(** [std::exchange(obj, RawMemory<T>())] with a temporary as the new value:
    the old value returned and [obj] afterwards. *)
Definition exchange_RawMemory (obj new_value : RawMemory T)
  : RawMemory T * RawMemory T :=
  let '(old_value, obj1) := RawMemory_move_ctor obj in
  let '(obj2, _) := RawMemory_move_assign false obj1 new_value in
  (old_value, obj2).

(** [std::exchange] on a [size_t]. *)
Definition exchange_size_t (obj new_value : Z) : Z * Z := (obj, new_value).

Definition RawMemory_Swap (this other : RawMemory T) : RawMemory T * RawMemory T :=
  ({| buffer_ := buffer_ other; capacity_ := capacity_ other |},
   {| buffer_ := buffer_ this; capacity_ := capacity_ this |}).

(** The base address, as an offset. *)
Definition GetAddress (m : RawMemory T) : Z := 0.

Definition RawMemory_Capacity (m : RawMemory T) : Z := capacity_ m.

(** [T& operator[](size_t index)]: the object designated. *)
Definition RawMemory_index {E} (m : RawMemory T) (index : Z) : outcome E T :=
  assert (index <? capacity_ m) (deref (buffer_ m) index).

Definition set_buffer (m : RawMemory T) (b : block T) : RawMemory T :=
  {| buffer_ := b; capacity_ := capacity_ m |}.

(** *** Vector *)

Definition set_block (v : Vector T) (b : block T) : Vector T :=
  {| data_ := set_buffer (data_ v) b; size_ := size_ v |}.

Definition set_size (v : Vector T) (n : Z) : Vector T :=
  {| data_ := data_ v; size_ := n |}.

Definition begin (v : Vector T) : Z := GetAddress (data_ v).
Definition end_ (v : Vector T) : Z := GetAddress (data_ v) + size_ v.
Definition cbegin (v : Vector T) : Z := GetAddress (data_ v).
Definition cend (v : Vector T) : Z := GetAddress (data_ v) + size_ v.

(** [Vector() = default]. *)
Definition Vector_default : Vector T :=
  {| data_ := RawMemory_default; size_ := 0 |}.

Definition Size (v : Vector T) : Z := size_ v.
Definition Capacity (v : Vector T) : Z := RawMemory_Capacity (data_ v).

(** [explicit Vector(size_t size)]. *)
Definition Vector_new (size : Z) : outcome unit (Vector T) :=
  let* d := RawMemory_new size in
  let* b := uninitialized_value_construct_n (buffer_ d) (GetAddress d) size in
  Ok {| data_ := set_buffer d b; size_ := size |}.

(** [Vector(Vector&& other)]: the new object and [other] afterwards. *)
Definition Vector_move_ctor (other : Vector T) : Vector T * Vector T :=
  let '(d, other_data) := exchange_RawMemory (data_ other) RawMemory_default in
  let '(s, other_size) := exchange_size_t (size_ other) 0 in
  ({| data_ := d; size_ := s |}, {| data_ := other_data; size_ := other_size |}).

(** [operator=(Vector&& rhs)].  The two operands are objects of a store,
    named by their addresses, so that [this == &rhs] can be asked; [None]
    when an address names no object. *)
Definition Vector_move_assign (this rhs : nat) (st : list (Vector T))
  : option (list (Vector T)) :=
  match st !! this, st !! rhs with
  | Some vt, Some vr =>
      if negb (Nat.eqb this rhs) then
        let '(tmp, rhs_data) := exchange_RawMemory (data_ vr) RawMemory_default in
        let '(d, _) := RawMemory_move_assign false (data_ vt) tmp in
        let '(s, rhs_size) := exchange_size_t (size_ vr) 0 in
        Some (<[rhs := {| data_ := rhs_data; size_ := rhs_size |}]>
                (<[this := {| data_ := d; size_ := s |}]> st))
      else Some st
  | _, _ => None
  end.

(** [data_] and [new_data] afterwards. *)
Definition UninitializedNewData (v : Vector T) (new_data : RawMemory T)
  : outcome (block T * block T) (block T * block T) :=
  if is_nothrow_move_constructible || negb is_copy_constructible then
    uninitialized_move_n (buffer_ (data_ v)) (GetAddress (data_ v)) (size_ v)
      (buffer_ new_data) (GetAddress new_data)
  else
    uninitialized_copy_n (buffer_ (data_ v)) (GetAddress (data_ v)) (size_ v)
      (buffer_ new_data) (GetAddress new_data).

Definition Reserve (new_capacity : Z) (v : Vector T) : outcome (Vector T) (Vector T) :=
  if new_capacity <=? RawMemory_Capacity (data_ v) then Ok v
  else
    let* new_data := unwind (fun _ => v) (RawMemory_new new_capacity) in
    let* (old, new) :=
      unwind (fun '(old, _) => set_block v old) (UninitializedNewData v new_data) in
    let* old' := destroy_n old (GetAddress (data_ v)) (size_ v) in
    let '(d, _) := RawMemory_Swap (set_buffer (data_ v) old') (set_buffer new_data new) in
    Ok {| data_ := d; size_ := size_ v |}.

Definition Resize (new_size : Z) (v : Vector T) : outcome (Vector T) (Vector T) :=
  if RawMemory_Capacity (data_ v) <? new_size then
    let* v1 := Reserve new_size v in
    let* b := uninitialized_value_construct_n (buffer_ (data_ v1))
                (GetAddress (data_ v1)) (to_size_t (new_size - size_ v1)) in
    Ok (set_size (set_block v1 b) new_size)
  else
    let* b := destroy_n (buffer_ (data_ v))
                (GetAddress (data_ v) + new_size) (to_size_t (size_ v - new_size)) in
    Ok (set_size (set_block v b) new_size).

Definition PopBack (v : Vector T) : outcome (Vector T) (Vector T) :=
  let* b := destroy_n (buffer_ (data_ v)) (GetAddress (data_ v) + size_ v - 1) 1 in
  Ok (set_size (set_block v b) (to_size_t (size_ v - 1))).

(** [T(std::forward<Args>(args)...)] is given by its result: [None] when the
    constructor throws, the object built otherwise. *)
Definition InsertWithoutAlloc (pos_idx : Z) (args : option T) (v : Vector T)
  : outcome (Vector T) (Vector T) :=
  if size_ v =? pos_idx then
    match args with
    | None => Throw v
    | Some x =>
        let* b := construct_at (buffer_ (data_ v)) (begin v + pos_idx) x in
        Ok (set_block v b)
    end
  else
    match args with
    | None => Throw v
    | Some tmp =>
        let* last := deref (buffer_ (data_ v)) (end_ v - 1) in
        if move_throws last then Throw v
        else
          let* b1 := construct_at
                       (<[Z.to_nat (end_ v - 1) := Some (moved_from last)]> (buffer_ (data_ v)))
                       (end_ v) last in
          let* b2 := move_backward b1 (begin v + pos_idx) (end_ v - 1) (end_ v) in
          let* b3 := assert (pos_idx <? capacity_ (data_ v)) (assign_at b2 pos_idx tmp) in
          Ok (set_block v b3)
    end.

Definition InsertWithAlloc (pos pos_idx : Z) (args : option T) (v : Vector T)
  : outcome (Vector T) (Vector T) :=
  let count_prev := to_size_t (pos - cbegin v) in
  let count_next := to_size_t (cend v - pos) in
  let* new_data :=
    unwind (fun _ => v)
      (RawMemory_new (if size_ v =? 0 then 1 else to_size_t (2 * size_ v))) in
  match args with
  | None => Throw v
  | Some x =>
      let* nb := construct_at (buffer_ new_data) (GetAddress new_data + pos_idx) x in
      let* (old2, new2) :=
        unwind (fun '(old, _) => set_block v old)
          (if is_nothrow_move_constructible || negb is_copy_constructible then
             let* (old1, new1) :=
               try_catch
                 (uninitialized_move_n (buffer_ (data_ v)) (begin v) count_prev
                    nb (GetAddress new_data))
                 (fun '(old, new) =>
                    let* old' := destroy_n old (begin v) count_prev in Ok (old', new)) in
             try_catch
               (uninitialized_move_n old1 (begin v + count_prev) count_next
                  new1 (GetAddress new_data + count_prev + 1))
               (fun '(old, new) =>
                  let* old' := destroy_n old (begin v + count_prev) count_next in
                  Ok (old', new))
           else
             let* (old1, new1) :=
               try_catch
                 (uninitialized_copy_n (buffer_ (data_ v)) (begin v) count_prev
                    nb (GetAddress new_data))
                 (fun '(old, new) =>
                    let* old' := destroy_n old (begin v) count_prev in Ok (old', new)) in
             try_catch
               (uninitialized_copy_n old1 (begin v + count_prev) count_next
                  new1 (GetAddress new_data + count_prev + 1))
               (fun '(old, new) =>
                  let* old' := destroy_n old (begin v + count_prev) count_next in
                  Ok (old', new))) in
      let* old3 := destroy_n old2 (begin v) (size_ v) in
      let '(d, _) := RawMemory_Swap (set_buffer (data_ v) old3) (set_buffer new_data new2) in
      Ok {| data_ := d; size_ := size_ v |}
  end.

(** [Emplace(pos, args...)]: the iterator returned and the vector. *)
Definition Emplace (pos : Z) (args : option T) (v : Vector T)
  : outcome (Vector T) (Z * Vector T) :=
  let pos_idx := to_size_t (pos - cbegin v) in
  let* v1 :=
    if size_ v =? Capacity v
    then InsertWithAlloc pos pos_idx args v
    else InsertWithoutAlloc pos_idx args v in
  let v2 := set_size v1 (to_size_t (size_ v1 + 1)) in
  Ok (begin v2 + pos_idx, v2).

(** [T(value)] for [const T& value], and for [T&& value]. *)
Definition copy_construct (value : T) : option T :=
  if copy_throws value then None else Some value.
Definition move_construct (value : T) : option T :=
  if move_throws value then None else Some value.

(** [Insert(const_iterator pos, const T& value)]. *)
Definition Insert (pos : Z) (value : T) (v : Vector T)
  : outcome (Vector T) (Z * Vector T) :=
  Emplace pos (copy_construct value) v.

(** [Insert(const_iterator pos, T&& value)], for a [value] that is not an
    element of the vector itself. *)
Definition Insert_rvalue (pos : Z) (value : T) (v : Vector T)
  : outcome (Vector T) (Z * Vector T) :=
  Emplace pos (move_construct value) v.

(** [EmplaceBack(args...)]: the object the returned reference designates,
    and the vector. *)
Definition EmplaceBack (args : option T) (v : Vector T)
  : outcome (Vector T) (T * Vector T) :=
  let* (it, v') := Emplace (end_ v) args v in
  let* x := deref (buffer_ (data_ v')) it in
  Ok (x, v').

(** [PushBack(const T& value)]. *)
Definition PushBack (value : T) (v : Vector T) : outcome (Vector T) (Vector T) :=
  let* (_, v') := EmplaceBack (copy_construct value) v in Ok v'.

(** [PushBack(T&& value)]. *)
Definition PushBack_rvalue (value : T) (v : Vector T) : outcome (Vector T) (Vector T) :=
  let* (_, v') := EmplaceBack (move_construct value) v in Ok v'.

(** [Erase(pos)]: the iterator returned and the vector. *)
Definition Erase (pos : Z) (v : Vector T) : outcome (Vector T) (Z * Vector T) :=
  let pos_idx := to_size_t (pos - cbegin v) in
  let* b1 := std_move (buffer_ (data_ v)) (begin v + pos_idx + 1) (end_ v)
               (begin v + pos_idx) in
  let v1 := set_block v b1 in
  let* b2 := destroy_n b1 (end_ v1 - 1) 1 in
  let v2 := set_size (set_block v1 b2) (to_size_t (size_ v1 - 1)) in
  Ok (begin v2 + pos_idx, v2).

(** [T& operator[](size_t index)]: the object designated. *)
Definition Vector_index (v : Vector T) (index : Z) : outcome unit T :=
  assert (index <? size_ v) (RawMemory_index (data_ v) index).

(** [T* operator+(size_t offset)]: the address, one past the last slot
    included. *)
Definition RawMemory_plus {E} (m : RawMemory T) (offset : Z) : outcome E Z :=
  assert (offset <=? capacity_ m) (Ok (GetAddress m + offset)).

(** [std::swap] on two [RawMemory]: a move construction and two move
    assignments. *)
Definition swap_RawMemory (a b : RawMemory T) : RawMemory T * RawMemory T :=
  let '(tmp, a1) := RawMemory_move_ctor a in
  let '(a2, b1) := RawMemory_move_assign false a1 b in
  let '(b2, _) := RawMemory_move_assign false b1 tmp in
  (a2, b2).

(** [Swap(Vector& other)]: [*this] and [other] afterwards. *)
Definition Vector_Swap (this other : Vector T) : Vector T * Vector T :=
  let '(d, od) := swap_RawMemory (data_ this) (data_ other) in
  ({| data_ := d; size_ := size_ other |}, {| data_ := od; size_ := size_ this |}).

(** [~Vector()]; the buffer is then given back by [~RawMemory()]. *)
Definition Vector_dtor {E} (v : Vector T) : outcome E unit :=
  if negb (size_ v =? 0) then
    let* _ := destroy_n (buffer_ (data_ v)) (GetAddress (data_ v)) (size_ v) in Ok tt
  else Ok tt.

(** [UninitializedData(from, to)], [from] being a [const RawMemory<T>&]:
    [from] and [to] afterwards. *)
Definition UninitializedData (v : Vector T) (from to : RawMemory T)
  : outcome (block T * block T) (block T * block T) :=
  if is_nothrow_move_constructible || negb is_copy_constructible then
    uninitialized_move_n_const (buffer_ from) (GetAddress from) (size_ v)
      (buffer_ to) (GetAddress to)
  else
    uninitialized_copy_n (buffer_ from) (GetAddress from) (size_ v)
      (buffer_ to) (GetAddress to).

(** [Vector(const Vector& other)]; when it throws, no object has been
    made. *)
Definition Vector_copy_ctor (other : Vector T) : outcome unit (Vector T) :=
  let* d := RawMemory_new (size_ other) in
  let this := {| data_ := d; size_ := size_ other |} in
  let* (_, b) := unwind (fun _ => tt) (UninitializedData this (data_ other) d) in
  Ok (set_block this b).

(** [operator=(const Vector& rhs)], on two objects of a store as for the
    move assignment; what an exception leaves behind is the store. *)
Definition Vector_copy_assign (this rhs : nat) (st : list (Vector T))
  : outcome (list (Vector T)) (list (Vector T)) :=
  match st !! this, st !! rhs with
  | Some vt, Some vr =>
      if negb (Nat.eqb this rhs) then
        if RawMemory_Capacity (data_ vt) <? size_ vr then
          let* rhs_copy := unwind (fun _ => st) (Vector_copy_ctor vr) in
          let '(vt', rhs_copy') := Vector_Swap vt rhs_copy in
          let* _ := Vector_dtor rhs_copy' in
          Ok (<[this := vt']> st)
        else
          let count :=
            if size_ vr <? size_ vt
            then to_size_t (size_ vt - size_ vr)
            else to_size_t (size_ vr - size_ vt) in
          if size_ vr <? size_ vt then
            let* b1 := copy_n (buffer_ (data_ vr)) (GetAddress (data_ vr)) (size_ vr)
                         (buffer_ (data_ vt)) (begin vt) in
            let* b2 := destroy_n b1 (GetAddress (data_ vt) + size_ vr) count in
            Ok (<[this := set_size (set_block vt b2) (size_ vr)]> st)
          else
            let* b1 := copy_n (buffer_ (data_ vr)) (GetAddress (data_ vr)) (size_ vt)
                         (buffer_ (data_ vt)) (begin vt) in
            let* (_, b2) :=
              unwind (fun '(_, b) => <[this := set_block vt b]> st)
                (uninitialized_copy_n (buffer_ (data_ vr))
                   (GetAddress (data_ vr) + size_ vt) count
                   b1 (GetAddress (data_ vt) + size_ vt)) in
            Ok (<[this := set_size (set_block vt b2) (size_ vr)]> st)
      else Ok st
  | _, _ => Undefined
  end.

(** A caller's loop: [for (const T& y : ys) v.PushBack(y);]. *)
Fixpoint PushBack_each (ys : list T) (v : Vector T) : outcome (Vector T) (Vector T) :=
  match ys with
  | [] => Ok v
  | y :: ys' => let* v' := PushBack y v in PushBack_each ys' v'
  end.

End VectorOps.

(** ** The abstract view of a vector *)

Section Model.
Context {T : Type} `{Elem T} `{Platform}.

(** The vector whose live objects are [xs], followed by [spare] raw slots. *)
Definition layout (xs : list T) (spare : nat) : Vector T :=
  {| data_ := {| buffer_ := (Some <$> xs) ++ replicate spare None;
                 capacity_ := Z.of_nat (length xs + spare) |};
     size_ := Z.of_nat (length xs) |}.

(** [v] is a well-formed vector holding the sequence [xs]: its buffer has
    [capacity_] slots, the first [size_] of them are the live objects [xs]
    and the others are raw, and the capacity is a [size_t]. *)
Definition represents (v : Vector T) (xs : list T) : Prop :=
  v = layout xs (Z.to_nat (capacity_ (data_ v)) - length xs)
  /\ capacity_ (data_ v) < 2 ^ SIZE_WIDTH.

(** Neither constructing a copy of [x] nor moving from [x] throws. *)
Definition never_throws (x : T) : Prop :=
  copy_throws x = false /\ move_throws x = false.

(** The constructor that relocation uses throws on [x]: the move constructor
    when the traits choose to move, the copy constructor otherwise. *)
Definition relocation_throws (x : T) : bool :=
  if is_nothrow_move_constructible || negb is_copy_constructible
  then move_throws x else copy_throws x.

(** [RawMemory(n)] gets its [n] slots: the byte count does not wrap and the
    heap serves it. *)
Definition can_allocate (n : Z) : Prop :=
  n * sizeof < 2 ^ SIZE_WIDTH /\ operator_new_ok (n * sizeof) = true.

(** The capacity [InsertWithAlloc] asks for when it holds [n] objects. *)
Definition grown (n : nat) : nat :=
  match n with O => 1 | _ => 2 * n end.

End Model.

(** ** [Vector<int>] on a small heap, for the examples *)

#[export] Instance int_elem : Elem Z := {|
  sizeof := 4;
  sizeof_pos := eq_refl;
  value_init := 0;
  copy_throws := fun _ => false;
  move_throws := fun _ => false;
  moved_from := fun x => x;
  is_nothrow_move_constructible := true;
  is_copy_constructible := true;
  nothrow_move := fun _ _ => eq_refl;
|}.

(** An element type whose copy and move constructors throw on the value 13;
    its move constructor is not [noexcept] and it can be copied, so that
    relocation copies. *)
Definition throwing_elem : Elem Z := {|
  sizeof := 4;
  sizeof_pos := eq_refl;
  value_init := 0;
  copy_throws := fun x => x =? 13;
  move_throws := fun x => x =? 13;
  moved_from := fun x => x;
  is_nothrow_move_constructible := false;
  is_copy_constructible := true;
  nothrow_move := fun (H : false = true) _ =>
    match H in _ = b return (if b then _ else True) with eq_refl => I end;
|}.

(** A debug build whose heap serves up to 4096 bytes at a time, on a
    library whose loops over a pair of iterators do nothing on a reversed
    range. *)
Definition debug_platform : Platform :=
  {| operator_new_ok := fun bytes => bytes <=? 4096;
     NDEBUG := false;
     reversed_range_is_empty := true |}.

(** * Facts about the memory primitives *)

Section MemoryFacts.
Context {T : Type} `{Elem T} `{Platform}.
Implicit Types (b pre post mid : list (option T)) (xs ys : list T).

Lemma valid_range_true b first n :
  0 <= first -> 0 <= n -> first + n <= Z.of_nat (length b) ->
  valid_range b first n = true.
Proof. unfold valid_range. rewrite !andb_true_iff, !Z.leb_le. lia. Qed.

Lemma valid_range_false b first n :
  first < 0 \/ n < 0 \/ Z.of_nat (length b) < first + n ->
  valid_range b first n = false.
Proof.
  intros Hlt. apply not_true_is_false. unfold valid_range.
  rewrite !andb_true_iff, !Z.leb_le. lia.
Qed.

Lemma lookup_middle pre post (s : option T) :
  (pre ++ s :: post) !! length pre = Some s.
Proof. by apply list_lookup_middle. Qed.

Lemma insert_middle pre post (s s' : option T) :
  <[length pre := s']> (pre ++ s :: post) = pre ++ s' :: post.
Proof.
  replace (length pre) with (length pre + 0)%nat by lia.
  by rewrite insert_app_r.
Qed.

Lemma snoc_cons pre post (s : option T) : pre ++ s :: post = (pre ++ [s]) ++ post.
Proof. by rewrite <- app_assoc. Qed.

Lemma length_snoc pre (s : option T) : length (pre ++ [s]) = S (length pre).
Proof. rewrite length_app. simpl. lia. Qed.

(** [destroy_n] over a run of live objects leaves raw memory. *)
Lemma destroy_loop_live {E} ys pre post :
  destroy_loop (E:=E) (length ys) (length pre) (pre ++ (Some <$> ys) ++ post)
  = Ok (pre ++ replicate (length ys) None ++ post).
Proof.
  revert pre. induction ys as [|y ys IH]; intros pre; simpl; [done|].
  rewrite lookup_middle, insert_middle.
  rewrite (snoc_cons pre), <- (length_snoc pre None), IH.
  by rewrite <- app_assoc.
Qed.

(** A destructor does not throw. *)
Lemma destroy_loop_nothrow {E} n : forall i b (e : E), destroy_loop n i b <> Throw e.
Proof.
  induction n as [|n IH]; intros i b e; simpl; [done|].
  destruct (b !! i) as [[?|]|]; [apply IH|done..].
Qed.

Lemma destroy_n_nothrow {E} b first n (e : E) : destroy_n b first n <> Throw e.
Proof. unfold destroy_n. destruct (valid_range _ _ _); [apply destroy_loop_nothrow|done]. Qed.

Lemma destroy_loop_no_assert {E} n : forall i b, destroy_loop (E:=E) n i b <> AssertFail.
Proof.
  induction n as [|n IH]; intros i b; simpl; [done|].
  destruct (b !! i) as [[?|]|]; [apply IH|done..].
Qed.

Lemma destroy_n_no_assert {E} b first n : destroy_n (E:=E) b first n <> AssertFail.
Proof. unfold destroy_n. destruct (valid_range _ _ _); [apply destroy_loop_no_assert|done]. Qed.

Lemma value_construct_loop_over mid pre post :
  value_construct_loop (length mid) (length pre) (pre ++ mid ++ post)
  = pre ++ replicate (length mid) (Some value_init) ++ post.
Proof.
  revert pre. induction mid as [|s mid IH]; intros pre; simpl; [done|].
  rewrite insert_middle.
  rewrite (snoc_cons pre), <- (length_snoc pre (Some value_init)), IH.
  by rewrite <- app_assoc.
Qed.

(** Relocation by copy, when no copy constructor throws. *)
Lemma copy_loop_ok ys : forall spre spost dpre dmid dpost j0,
  Forall (fun x => copy_throws x = false) ys ->
  length dmid = length ys ->
  copy_loop (length ys) (length spre) j0 (length dpre)
    (spre ++ (Some <$> ys) ++ spost) (dpre ++ dmid ++ dpost)
  = Ok (spre ++ (Some <$> ys) ++ spost, dpre ++ (Some <$> ys) ++ dpost).
Proof.
  induction ys as [|y ys IH]; intros spre spost dpre dmid dpost j0 Hok Hlen.
  - destruct dmid; [done | discriminate].
  - destruct dmid as [|s dmid]; [discriminate|].
    apply Forall_cons in Hok as [Hy Hok]. simpl in *.
    rewrite lookup_middle, Hy, insert_middle.
    rewrite (snoc_cons spre), (snoc_cons dpre).
    rewrite <- (length_snoc spre (Some y)), <- (length_snoc dpre (Some y)).
    rewrite (IH _ _ _ dmid) by (auto; lia).
    by rewrite <- !app_assoc.
Qed.

(** Relocation by move, when no move constructor throws: the sources are
    left moved-from. *)
Lemma move_construct_loop_ok ys : forall spre spost dpre dmid dpost j0,
  Forall (fun x => move_throws x = false) ys ->
  length dmid = length ys ->
  move_construct_loop (length ys) (length spre) j0 (length dpre)
    (spre ++ (Some <$> ys) ++ spost) (dpre ++ dmid ++ dpost)
  = Ok (spre ++ (Some <$> (moved_from <$> ys)) ++ spost,
        dpre ++ (Some <$> ys) ++ dpost).
Proof.
  induction ys as [|y ys IH]; intros spre spost dpre dmid dpost j0 Hok Hlen.
  - destruct dmid; [done | discriminate].
  - destruct dmid as [|s dmid]; [discriminate|].
    apply Forall_cons in Hok as [Hy Hok]. simpl in *.
    rewrite lookup_middle, Hy, !insert_middle.
    rewrite (snoc_cons spre), (snoc_cons dpre).
    rewrite <- (length_snoc spre (Some (moved_from y))), <- (length_snoc dpre (Some y)).
    rewrite (IH _ _ _ dmid) by (auto; lia).
    by rewrite <- !app_assoc.
Qed.

Lemma length_clear_range n : forall i b, length (clear_range n i b) = length b.
Proof.
  induction n as [|n IH]; intros i b; simpl; [done|].
  by rewrite IH, length_insert.
Qed.

(** Relocation by copy when the copy of [t] throws: the source is as it was. *)
Lemma copy_loop_throw ys1 t ys2 : forall spre spost dst j0 j,
  Forall (fun x => copy_throws x = false) ys1 -> copy_throws t = true ->
  exists ys' dst',
    length ys' = length (ys1 ++ t :: ys2) /\ length dst' = length dst /\
    copy_loop (length (ys1 ++ t :: ys2)) (length spre) j0 j
      (spre ++ (Some <$> ys1 ++ t :: ys2) ++ spost) dst
    = Throw (spre ++ (Some <$> ys') ++ spost, dst').
Proof.
  induction ys1 as [|a ys1 IH]; intros spre spost dst j0 j Hok Ht.
  - exists (t :: ys2), (clear_range (j - j0) j0 dst).
    split; [done|]. split; [apply length_clear_range|].
    cbn [app length copy_loop]. rewrite fmap_cons. cbn [app].
    by rewrite lookup_middle, Ht.
  - apply Forall_cons in Hok as [Ha Hok].
    destruct (IH (spre ++ [Some a]) spost (<[j := Some a]> dst) j0 (S j) Hok Ht)
      as (ys' & dst' & Hlen & Hdst & Hloop).
    exists (a :: ys'), dst'.
    split; [simpl in *; lia|]. split; [by rewrite Hdst, length_insert|].
    cbn [app length copy_loop]. rewrite !fmap_cons. cbn [app].
    rewrite lookup_middle, Ha.
    rewrite length_snoc, <- !snoc_cons in Hloop. exact Hloop.
Qed.

(** Relocation by move when the move from [t] throws: the objects before [t]
    are left moved-from, and all are still live. *)
Lemma move_construct_loop_throw ys1 t ys2 : forall spre spost dst j0 j,
  Forall (fun x => move_throws x = false) ys1 -> move_throws t = true ->
  exists ys' dst',
    length ys' = length (ys1 ++ t :: ys2) /\ length dst' = length dst /\
    move_construct_loop (length (ys1 ++ t :: ys2)) (length spre) j0 j
      (spre ++ (Some <$> ys1 ++ t :: ys2) ++ spost) dst
    = Throw (spre ++ (Some <$> ys') ++ spost, dst').
Proof.
  induction ys1 as [|a ys1 IH]; intros spre spost dst j0 j Hok Ht.
  - exists (t :: ys2), (clear_range (j - j0) j0 dst).
    split; [done|]. split; [apply length_clear_range|].
    cbn [app length move_construct_loop]. rewrite fmap_cons. cbn [app].
    by rewrite lookup_middle, Ht.
  - apply Forall_cons in Hok as [Ha Hok].
    destruct (IH (spre ++ [Some (moved_from a)]) spost (<[j := Some a]> dst) j0 (S j) Hok Ht)
      as (ys' & dst' & Hlen & Hdst & Hloop).
    exists (moved_from a :: ys'), dst'.
    split; [simpl in *; lia|]. split; [by rewrite Hdst, length_insert|].
    cbn [app length move_construct_loop]. rewrite !fmap_cons. cbn [app].
    rewrite lookup_middle, Ha, insert_middle.
    rewrite length_snoc, <- !snoc_cons in Hloop. exact Hloop.
Qed.

(** A run of objects either relocates without an exception or has a first
    object on which the constructor throws. *)
Lemma first_thrower (throws : T -> bool) ys :
  Forall (fun x => throws x = false) ys
  \/ exists ys1 t ys2,
       ys = ys1 ++ t :: ys2 /\ Forall (fun x => throws x = false) ys1 /\ throws t = true.
Proof.
  induction ys as [|y ys [IH | (ys1 & t & ys2 & -> & Hok & Ht)]].
  - left. constructor.
  - destruct (throws y) eqn:Hy.
    + right. exists [], y, ys. by repeat split.
    + left. by constructor.
  - destruct (throws y) eqn:Hy.
    + right. exists [], y, (ys1 ++ t :: ys2). by repeat split.
    + right. exists (y :: ys1), t, ys2. repeat split; [|done]. by constructor.
Qed.

(** Destroying a run that ends in raw memory is undefined. *)
Lemma destroy_loop_raw {E} ys : forall pre post n,
  (length ys < n)%nat ->
  destroy_loop (E:=E) n (length pre) (pre ++ (Some <$> ys) ++ None :: post) = Undefined.
Proof.
  induction ys as [|y ys IH]; intros pre post n Hn.
  - destruct n as [|n]; [simpl in Hn; lia|]. cbn [fmap list_fmap app destroy_loop].
    by rewrite lookup_middle.
  - destruct n as [|n]; [simpl in Hn; lia|]. rewrite fmap_cons. cbn [app destroy_loop].
    rewrite lookup_middle, insert_middle.
    rewrite (snoc_cons pre), <- (length_snoc pre None).
    apply IH. simpl in Hn. lia.
Qed.

Lemma lookup_middle_S pre post (s s' : option T) :
  (pre ++ s :: s' :: post) !! S (length pre) = Some s'.
Proof. by rewrite (snoc_cons pre), <- (length_snoc pre s), lookup_middle. Qed.

Lemma insert_middle_S pre post (s s' t : option T) :
  <[S (length pre) := t]> (pre ++ s :: s' :: post) = pre ++ s :: t :: post.
Proof.
  by rewrite (snoc_cons pre), <- (length_snoc pre s), insert_middle, <- snoc_cons.
Qed.

Lemma move_assign_slot_left pre post (h r : T) :
  move_assign_slot (S (length pre)) (length pre) (pre ++ Some h :: Some r :: post)
  = Some (pre ++ Some r :: Some (moved_from r) :: post).
Proof.
  unfold move_assign_slot.
  by rewrite lookup_middle_S, lookup_middle, insert_middle_S, insert_middle.
Qed.

Lemma move_assign_slot_right pre post (h r : T) :
  move_assign_slot (length pre) (S (length pre)) (pre ++ Some r :: Some h :: post)
  = Some (pre ++ Some (moved_from r) :: Some r :: post).
Proof.
  unfold move_assign_slot.
  by rewrite lookup_middle_S, lookup_middle, insert_middle, insert_middle_S.
Qed.

(** [std::move] of a run onto the slot before it: the run ends up one slot
    to the left, and the slot after it holds some live (moved-from or
    overwritten) object. *)
Lemma move_loop_shift_left {E} rest : forall pre h post,
  exists h',
    move_loop (E:=E) (length rest) (S (length pre)) (length pre)
      (pre ++ Some h :: (Some <$> rest) ++ post)
    = Ok (pre ++ (Some <$> rest) ++ Some h' :: post).
Proof.
  induction rest as [|r rest IH]; intros pre h post; simpl.
  - by exists h.
  - rewrite move_assign_slot_left.
    destruct (IH (pre ++ [Some r]) (moved_from r) post) as [h' Hh'].
    exists h'. rewrite length_snoc, <- !snoc_cons in Hh'. exact Hh'.
Qed.

(** [std::move_backward] of a run onto the slot after it. *)
Lemma move_backward_loop_shift_right {E} ys : forall pre h post,
  exists h',
    move_backward_loop (E:=E) (length ys)
      (length pre + length ys) (S (length pre + length ys))
      (pre ++ (Some <$> ys) ++ Some h :: post)
    = Ok (pre ++ Some h' :: (Some <$> ys) ++ post).
Proof.
  induction ys as [|r ys IH] using rev_ind; intros pre h post.
  - by exists h.
  - rewrite length_app, fmap_app. simpl.
    replace (length ys + 1)%nat with (S (length ys)) by lia. simpl.
    replace (Nat.pred (length pre + S (length ys)))
      with (length (pre ++ (Some <$> ys))) by (rewrite length_app, length_fmap; lia).
    replace (length pre + S (length ys))%nat
      with (S (length (pre ++ (Some <$> ys)))) by (rewrite length_app, length_fmap; lia).
    rewrite <- (app_assoc (Some <$> ys)), (app_assoc pre). simpl.
    rewrite move_assign_slot_right.
    destruct (IH pre (moved_from r) (Some r :: post)) as [h' Hh'].
    exists h'. rewrite length_app, length_fmap, <- app_assoc, Hh'.
    by rewrite <- app_assoc.
Qed.

(** The algorithms on ranges given by their offsets. *)

Lemma destroy_n_live {E} ys pre post first n :
  first = Z.of_nat (length pre) -> n = Z.of_nat (length ys) ->
  destroy_n (E:=E) (pre ++ (Some <$> ys) ++ post) first n
  = Ok (pre ++ replicate (length ys) None ++ post).
Proof.
  intros -> ->. unfold destroy_n.
  rewrite valid_range_true, !Nat2Z.id by (rewrite ?length_app, ?length_fmap; lia).
  apply destroy_loop_live.
Qed.

Lemma uninitialized_value_construct_n_over {E} mid pre post first n :
  first = Z.of_nat (length pre) -> n = Z.of_nat (length mid) ->
  uninitialized_value_construct_n (E:=E) (pre ++ mid ++ post) first n
  = Ok (pre ++ replicate (length mid) (Some value_init) ++ post).
Proof.
  intros -> ->. unfold uninitialized_value_construct_n.
  rewrite valid_range_true, !Nat2Z.id by (rewrite ?length_app; lia).
  by rewrite value_construct_loop_over.
Qed.

Lemma uninitialized_copy_n_ok ys spre spost dpre dmid dpost first n d_first :
  Forall (fun x => copy_throws x = false) ys ->
  length dmid = length ys ->
  first = Z.of_nat (length spre) -> n = Z.of_nat (length ys) ->
  d_first = Z.of_nat (length dpre) ->
  exists ys', length ys' = length ys /\
    uninitialized_copy_n (spre ++ (Some <$> ys) ++ spost) first n
      (dpre ++ dmid ++ dpost) d_first
    = Ok (spre ++ (Some <$> ys') ++ spost, dpre ++ (Some <$> ys) ++ dpost).
Proof.
  intros Hok Hlen -> -> ->. exists ys. split; [done|].
  unfold uninitialized_copy_n.
  rewrite !valid_range_true, !Nat2Z.id by (rewrite ?length_app, ?length_fmap; lia).
  simpl. by apply copy_loop_ok.
Qed.

Lemma uninitialized_move_n_ok ys spre spost dpre dmid dpost first n d_first :
  Forall (fun x => move_throws x = false) ys ->
  length dmid = length ys ->
  first = Z.of_nat (length spre) -> n = Z.of_nat (length ys) ->
  d_first = Z.of_nat (length dpre) ->
  exists ys', length ys' = length ys /\
    uninitialized_move_n (spre ++ (Some <$> ys) ++ spost) first n
      (dpre ++ dmid ++ dpost) d_first
    = Ok (spre ++ (Some <$> ys') ++ spost, dpre ++ (Some <$> ys) ++ dpost).
Proof.
  intros Hok Hlen -> -> ->. exists (moved_from <$> ys). split; [by rewrite length_fmap|].
  unfold uninitialized_move_n.
  rewrite !valid_range_true, !Nat2Z.id by (rewrite ?length_app, ?length_fmap; lia).
  simpl. by apply move_construct_loop_ok.
Qed.

Lemma uninitialized_copy_n_throw ys1 t ys2 spre spost dst first n d_first :
  Forall (fun x => copy_throws x = false) ys1 -> copy_throws t = true ->
  first = Z.of_nat (length spre) -> n = Z.of_nat (length (ys1 ++ t :: ys2)) ->
  0 <= d_first -> d_first + n <= Z.of_nat (length dst) ->
  exists ys' dst',
    length ys' = length (ys1 ++ t :: ys2) /\ length dst' = length dst /\
    uninitialized_copy_n (spre ++ (Some <$> ys1 ++ t :: ys2) ++ spost) first n dst d_first
    = Throw (spre ++ (Some <$> ys') ++ spost, dst').
Proof.
  intros Hok Ht -> -> Hd Hlen. unfold uninitialized_copy_n.
  rewrite !valid_range_true, !Nat2Z.id
    by (rewrite ?length_app, ?length_fmap, ?length_app in *; lia).
  cbn [andb]. by apply copy_loop_throw.
Qed.

Lemma uninitialized_move_n_throw ys1 t ys2 spre spost dst first n d_first :
  Forall (fun x => move_throws x = false) ys1 -> move_throws t = true ->
  first = Z.of_nat (length spre) -> n = Z.of_nat (length (ys1 ++ t :: ys2)) ->
  0 <= d_first -> d_first + n <= Z.of_nat (length dst) ->
  exists ys' dst',
    length ys' = length (ys1 ++ t :: ys2) /\ length dst' = length dst /\
    uninitialized_move_n (spre ++ (Some <$> ys1 ++ t :: ys2) ++ spost) first n dst d_first
    = Throw (spre ++ (Some <$> ys') ++ spost, dst').
Proof.
  intros Hok Ht -> -> Hd Hlen. unfold uninitialized_move_n.
  rewrite !valid_range_true, !Nat2Z.id
    by (rewrite ?length_app, ?length_fmap, ?length_app in *; lia).
  cbn [andb]. by apply move_construct_loop_throw.
Qed.

Lemma destroy_n_raw {E} ys pre post first n :
  first = Z.of_nat (length pre) -> Z.of_nat (length ys) < n ->
  destroy_n (E:=E) (pre ++ (Some <$> ys) ++ None :: post) first n = Undefined.
Proof.
  intros -> Hn. unfold destroy_n. destruct (valid_range _ _ _); [|done].
  rewrite Nat2Z.id. apply destroy_loop_raw. lia.
Qed.

Lemma std_move_shift_left {E} rest pre h post first last d_first :
  d_first = Z.of_nat (length pre) -> first = d_first + 1 ->
  last = first + Z.of_nat (length rest) ->
  exists h',
    std_move (E:=E) (pre ++ Some h :: (Some <$> rest) ++ post) first last d_first
    = Ok (pre ++ (Some <$> rest) ++ Some h' :: post).
Proof.
  intros -> -> ->. unfold std_move. cbv zeta.
  replace (_ <? 0) with false by lia.
  rewrite !valid_range_true
    by (rewrite ?length_app; simpl; rewrite ?length_app, ?length_fmap; lia).
  simpl.
  replace (Z.to_nat (Z.of_nat (length pre) + 1 + Z.of_nat (length rest)
                     - (Z.of_nat (length pre) + 1))) with (length rest) by lia.
  replace (Z.to_nat (Z.of_nat (length pre) + 1)) with (S (length pre)) by lia.
  rewrite Nat2Z.id. apply move_loop_shift_left.
Qed.

Lemma move_backward_shift_right {E} ys pre h post first last d_last :
  first = Z.of_nat (length pre) -> last = first + Z.of_nat (length ys) ->
  d_last = last + 1 ->
  exists h',
    move_backward (E:=E) (pre ++ (Some <$> ys) ++ Some h :: post) first last d_last
    = Ok (pre ++ Some h' :: (Some <$> ys) ++ post).
Proof.
  intros -> -> ->. unfold move_backward. cbv zeta.
  replace (_ <? 0) with false by lia.
  rewrite !valid_range_true
    by (rewrite ?length_app; simpl; rewrite ?length_app, ?length_fmap; simpl; lia).
  simpl.
  replace (Z.to_nat (Z.of_nat (length pre) + Z.of_nat (length ys)
                     - Z.of_nat (length pre))) with (length ys) by lia.
  replace (Z.to_nat (Z.of_nat (length pre) + Z.of_nat (length ys) + 1))
    with (S (length pre + length ys)) by lia.
  replace (Z.to_nat (Z.of_nat (length pre) + Z.of_nat (length ys)))
    with (length pre + length ys)%nat by lia.
  apply move_backward_loop_shift_right.
Qed.

(** No live object lies beyond the objects of a vector, nor after one more
    has been built at its end. *)
Lemma assign_beyond_the_size {E} xs spare (i j : nat) (u w : option T) pos tmp :
  (i <= length xs)%nat -> (j <= length xs)%nat -> Z.of_nat (length xs) < pos ->
  assign_at (E:=E) (<[i := u]> (<[j := w]> ((Some <$> xs) ++ replicate spare None)))
    pos tmp = Undefined.
Proof.
  intros Hi Hj Hpos. unfold assign_at, deref.
  destruct (valid_range _ _ 1); [|done].
  rewrite !list_lookup_insert_ne by lia.
  rewrite lookup_app_r by (rewrite length_fmap; lia).
  destruct (replicate spare None !! _) as [o|] eqn:Ho; [|done].
  by apply lookup_replicate in Ho as [-> _].
Qed.

Lemma deref_live {E} pre post (x : T) i :
  i = Z.of_nat (length pre) -> deref (E:=E) (pre ++ Some x :: post) i = Ok x.
Proof.
  intros ->. unfold deref.
  rewrite valid_range_true, Nat2Z.id, lookup_middle
    by (rewrite ?length_app; simpl; lia).
  done.
Qed.

Lemma construct_at_middle {E} pre post (s : option T) (x : T) i :
  i = Z.of_nat (length pre) ->
  construct_at (E:=E) (pre ++ s :: post) i x = Ok (pre ++ Some x :: post).
Proof.
  intros ->. unfold construct_at.
  rewrite valid_range_true, Nat2Z.id, insert_middle
    by (rewrite ?length_app; simpl; lia).
  done.
Qed.

Lemma assign_at_live {E} pre post (h x : T) i :
  i = Z.of_nat (length pre) ->
  assign_at (E:=E) (pre ++ Some h :: post) i x = Ok (pre ++ Some x :: post).
Proof.
  intros ->. unfold assign_at.
  rewrite (deref_live pre post h) by done. simpl.
  by rewrite Nat2Z.id, insert_middle.
Qed.

(** [std::copy_n] onto a run of live objects. *)
Lemma copy_assign_loop_ok {E} ys : forall zs spre spost dpre dpost,
  length zs = length ys ->
  copy_assign_loop (E:=E) (length ys) (length spre) (length dpre)
    (spre ++ (Some <$> ys) ++ spost) (dpre ++ (Some <$> zs) ++ dpost)
  = Ok (dpre ++ (Some <$> ys) ++ dpost).
Proof.
  induction ys as [|y ys IH]; intros zs spre spost dpre dpost Hlen.
  - destruct zs; [done | discriminate].
  - destruct zs as [|z zs]; [discriminate|].
    rewrite !fmap_cons. cbn [length app copy_assign_loop].
    rewrite !lookup_middle, insert_middle.
    rewrite (snoc_cons spre), (snoc_cons dpre).
    rewrite <- (length_snoc spre (Some y)), <- (length_snoc dpre (Some y)).
    rewrite (IH zs) by (simpl in Hlen; lia).
    by rewrite <- !app_assoc.
Qed.

Lemma copy_n_ok {E} ys zs spre spost dpre dpost first n d_first :
  length zs = length ys ->
  first = Z.of_nat (length spre) -> n = Z.of_nat (length ys) ->
  d_first = Z.of_nat (length dpre) ->
  copy_n (E:=E) (spre ++ (Some <$> ys) ++ spost) first n
    (dpre ++ (Some <$> zs) ++ dpost) d_first
  = Ok (dpre ++ (Some <$> ys) ++ dpost).
Proof.
  intros Hlen -> -> ->. unfold copy_n.
  rewrite !valid_range_true, !Nat2Z.id by (rewrite ?length_app, ?length_fmap; lia).
  cbn [andb]. by apply copy_assign_loop_ok.
Qed.

(** Relocation by copy never changes its source, whatever comes of it. *)
Lemma copy_loop_source n : forall i j0 j (src dst : list (option T)),
  match copy_loop n i j0 j src dst with
  | Ok (s, _) | Throw (s, _) => s = src
  | _ => True
  end.
Proof.
  induction n as [|n IH]; intros i j0 j src dst; cbn [copy_loop]; [done|].
  destruct (src !! i) as [[x|]|]; [|done..].
  destruct (copy_throws x); [done|]. apply IH.
Qed.

Lemma uninitialized_copy_n_source (src dst : list (option T)) first n d_first :
  match uninitialized_copy_n src first n dst d_first with
  | Ok (s, _) | Throw (s, _) => s = src
  | _ => True
  end.
Proof.
  unfold uninitialized_copy_n. destruct (_ && _); [apply copy_loop_source|done].
Qed.

End MemoryFacts.

(** * Facts about the vector operations *)

(** Arithmetic on the lengths of lists put together. *)
Ltac length_lia :=
  repeat (progress
    (rewrite ?length_app, ?length_fmap, ?length_replicate, ?length_take, ?length_drop in *;
     cbn [length] in *));
  lia.

(** Arithmetic up to the width of [size_t]. *)
Ltac size_lia := unfold SIZE_WIDTH in *; lia.

(** The accessors that only name a field or an offset. *)
Create HintDb accessors.
#[export] Hint Unfold begin end_ cbegin cend GetAddress Capacity Size
  RawMemory_Capacity RawMemory_Swap set_block set_buffer set_size : accessors.

Ltac step :=
  autounfold with accessors;
  cbn [bind unwind try_catch buffer_ capacity_ data_ size_ fst snd].

Section SequenceFacts.
Context {A : Type}.
Implicit Types (xs : list A) (x y : A) (p i : nat).

Lemma inserted_lookup_eq xs p x :
  (p <= length xs)%nat -> (take p xs ++ x :: drop p xs) !! p = Some x.
Proof. intros. apply list_lookup_middle. rewrite length_take. lia. Qed.

Lemma inserted_lookup_lt xs p x i :
  (i < p)%nat -> (p <= length xs)%nat ->
  (take p xs ++ x :: drop p xs) !! i = xs !! i.
Proof.
  intros. rewrite lookup_app_l by (rewrite length_take; lia).
  by apply lookup_take_lt.
Qed.

Lemma inserted_lookup_ge xs p x i :
  (p <= i)%nat -> (p <= length xs)%nat ->
  (take p xs ++ x :: drop p xs) !! S i = xs !! i.
Proof.
  intros. rewrite lookup_app_r by (rewrite length_take; lia).
  rewrite length_take, Nat.min_l by lia.
  replace (S i - p)%nat with (S (i - p)) by lia.
  rewrite lookup_cons, lookup_drop. f_equal. lia.
Qed.

Lemma removed_lookup_lt xs p i :
  (i < p)%nat -> (p < length xs)%nat ->
  (take p xs ++ drop (S p) xs) !! i = xs !! i.
Proof.
  intros. rewrite lookup_app_l by (rewrite length_take; lia).
  by apply lookup_take_lt.
Qed.

Lemma removed_lookup_ge xs p i :
  (p <= i)%nat -> (p < length xs)%nat ->
  (take p xs ++ drop (S p) xs) !! i = xs !! S i.
Proof.
  intros. rewrite lookup_app_r by (rewrite length_take; lia).
  rewrite length_take, Nat.min_l, lookup_drop by lia. f_equal. lia.
Qed.

Lemma removed_inserted xs p x :
  (p <= length xs)%nat ->
  take p (take p xs ++ x :: drop p xs) ++ drop (S p) (take p xs ++ x :: drop p xs) = xs.
Proof.
  intros.
  rewrite take_app_length' by (rewrite length_take; lia).
  rewrite drop_app_ge by (rewrite length_take; lia).
  rewrite length_take, Nat.min_l by lia.
  replace (S p - p)%nat with 1%nat by lia. cbn [drop]. rewrite drop_0. apply take_drop.
Qed.

End SequenceFacts.

Section VectorFacts.
Context {T : Type} `{Elem T} `{Platform}.
Implicit Types (v : Vector T) (xs ys pre rest : list T) (x y : T).

Lemma to_size_t_small z : 0 <= z < 2 ^ SIZE_WIDTH -> to_size_t z = z.
Proof. intros. unfold to_size_t. by apply Z.mod_small. Qed.

Lemma represents_layout xs spare :
  Z.of_nat (length xs + spare) < 2 ^ SIZE_WIDTH -> represents (layout xs spare) xs.
Proof.
  intros Hcap. split; [|done]. simpl.
  by replace (Z.to_nat (Z.of_nat (length xs + spare)) - length xs)%nat with spare by lia.
Qed.

Lemma represents_inv v xs :
  represents v xs ->
  exists spare, v = layout xs spare /\ Z.of_nat (length xs + spare) < 2 ^ SIZE_WIDTH.
Proof.
  intros [Hv Hcap]. eexists. split; [exact Hv|].
  rewrite Hv in Hcap. exact Hcap.
Qed.

Lemma represents_size v xs : represents v xs -> Size v = Z.of_nat (length xs).
Proof. intros [-> _]. done. Qed.

Lemma represents_inj v xs ys : represents v xs -> represents v ys -> xs = ys.
Proof.
  intros Hx Hy.
  pose proof (represents_size _ _ Hx) as Hsx.
  pose proof (represents_size _ _ Hy) as Hsy.
  destruct Hx as [Hx _], Hy as [Hy _].
  rewrite Hx in Hy at 1. injection Hy as Hbuf _ _.
  apply app_inj_1 in Hbuf as [Hbuf _]; [|rewrite !length_fmap; lia].
  by apply (inj (fmap Some)) in Hbuf.
Qed.

Lemma can_allocate_bound n : 0 <= n -> can_allocate n -> n < 2 ^ SIZE_WIDTH.
Proof. intros Hn [Hlt _]. pose proof sizeof_pos. nia. Qed.

Lemma Allocate_ok n :
  0 < n -> can_allocate n -> Allocate n = Ok (replicate (Z.to_nat n) None).
Proof.
  intros Hn [Hlt Hheap]. unfold Allocate. pose proof sizeof_pos.
  replace (n =? 0) with false by lia.
  rewrite to_size_t_small, Hheap by nia.
  by rewrite Z.div_mul by lia.
Qed.

Lemma RawMemory_new_ok n :
  0 < n -> can_allocate n ->
  RawMemory_new n = Ok {| buffer_ := replicate (Z.to_nat n) None; capacity_ := n |}.
Proof. intros. unfold RawMemory_new. by rewrite Allocate_ok. Qed.

(** Relocating a run of objects that never throw, whichever way the traits
    choose. *)
Lemma relocate_ok (use_move : bool) ys spre spost dpre dmid dpost first n d_first :
  Forall never_throws ys ->
  length dmid = length ys ->
  first = Z.of_nat (length spre) -> n = Z.of_nat (length ys) ->
  d_first = Z.of_nat (length dpre) ->
  exists ys', length ys' = length ys /\
    (if use_move then uninitialized_move_n else uninitialized_copy_n)
      (spre ++ (Some <$> ys) ++ spost) first n (dpre ++ dmid ++ dpost) d_first
    = Ok (spre ++ (Some <$> ys') ++ spost, dpre ++ (Some <$> ys) ++ dpost).
Proof.
  intros Hok. destruct use_move.
  - apply uninitialized_move_n_ok. eapply Forall_impl; [exact Hok|]. by intros ? [_ ?].
  - apply uninitialized_copy_n_ok. eapply Forall_impl; [exact Hok|]. by intros ? [? _].
Qed.

Lemma Reserve_layout xs spare n :
  Forall never_throws xs ->
  Z.of_nat (length xs + spare) < n -> can_allocate n ->
  Reserve n (layout xs spare) = Ok (layout xs (Z.to_nat n - length xs)).
Proof.
  intros Hok Hn Halloc. unfold Reserve, layout. step.
  replace (n <=? Z.of_nat (length xs + spare)) with false by lia.
  rewrite RawMemory_new_ok by (done || lia). step.
  replace (Z.to_nat n) with (length xs + (Z.to_nat n - length xs))%nat at 1 by lia.
  rewrite replicate_add.
  set (m := (Z.to_nat n - length xs)%nat).
  destruct (relocate_ok (is_nothrow_move_constructible || negb is_copy_constructible)
              xs [] (replicate spare None) [] (replicate (length xs) None)
              (replicate m None) 0 (Z.of_nat (length xs)) 0)
    as (ys' & Hlen & Hrel); [done|by rewrite length_replicate|done..|].
  rewrite !app_nil_l in Hrel.
  unfold UninitializedNewData. step.
  replace (if is_nothrow_move_constructible || negb is_copy_constructible
           then uninitialized_move_n ((Some <$> xs) ++ replicate spare None) 0
                  (Z.of_nat (length xs)) (replicate (length xs) None ++ replicate m None) 0
           else uninitialized_copy_n ((Some <$> xs) ++ replicate spare None) 0
                  (Z.of_nat (length xs)) (replicate (length xs) None ++ replicate m None) 0)
    with (Ok (E:=list (option T) * list (option T))
            ((Some <$> ys') ++ replicate spare None, (Some <$> xs) ++ replicate m None))
    by (rewrite <- Hrel; by destruct (_ || _)).
  step.
  rewrite (destroy_n_live ys' [] (replicate spare None)) by (done || lia). step.
  do 3 f_equal. lia.
Qed.

Lemma Erase_layout pre y rest spare :
  Z.of_nat (length (pre ++ y :: rest) + spare) < 2 ^ SIZE_WIDTH ->
  Erase (Z.of_nat (length pre)) (layout (pre ++ y :: rest) spare)
  = Ok (Z.of_nat (length pre), layout (pre ++ rest) (S spare)).
Proof.
  intros Hcap. rewrite length_app in Hcap. cbn [length] in Hcap.
  unfold Erase, layout. step.
  rewrite to_size_t_small by size_lia.
  rewrite fmap_app, fmap_cons, <- app_assoc, <- app_comm_cons.
  destruct (std_move_shift_left (E:=Vector T) rest (Some <$> pre) y (replicate spare None)
              (0 + (Z.of_nat (length pre) - 0) + 1)
              (0 + Z.of_nat (length (pre ++ y :: rest)))
              (0 + (Z.of_nat (length pre) - 0)))
    as [h' Hmove];
    [rewrite length_fmap; lia | lia | rewrite length_app; simpl; lia |].
  rewrite Hmove. step.
  rewrite (app_assoc (Some <$> pre)).
  rewrite (destroy_n_live [h'] ((Some <$> pre) ++ (Some <$> rest)) (replicate spare None))
    by (rewrite ?length_app, ?length_fmap; simpl; lia).
  step.
  rewrite to_size_t_small by (rewrite length_app; simpl; size_lia).
  f_equal. f_equal; [lia|]. unfold layout.
  rewrite fmap_app, !length_app. simpl. rewrite <- app_assoc.
  do 2 f_equal; lia.
Qed.

Lemma Emplace_layout_back xs x spare :
  Z.of_nat (length xs + S spare) < 2 ^ SIZE_WIDTH ->
  Emplace (Z.of_nat (length xs)) (Some x) (layout xs (S spare))
  = Ok (Z.of_nat (length xs), layout (xs ++ [x]) spare).
Proof.
  intros Hcap. unfold Emplace, layout. step.
  rewrite to_size_t_small by size_lia.
  replace (Z.of_nat (length xs) =? Z.of_nat (length xs + S spare)) with false by lia.
  unfold InsertWithoutAlloc. step.
  replace (Z.of_nat (length xs) =? Z.of_nat (length xs) - 0) with true by lia.
  rewrite replicate_S.
  rewrite (construct_at_middle (Some <$> xs)) by (rewrite length_fmap; lia).
  step.
  rewrite to_size_t_small by size_lia.
  f_equal. f_equal; [lia|].
  rewrite fmap_app, length_app. simpl. rewrite <- app_assoc. simpl.
  do 2 f_equal; lia.
Qed.

Lemma Emplace_layout_inside pre rest l x spare :
  move_throws l = false ->
  Z.of_nat (length (pre ++ rest ++ [l]) + S spare) < 2 ^ SIZE_WIDTH ->
  Emplace (Z.of_nat (length pre)) (Some x) (layout (pre ++ rest ++ [l]) (S spare))
  = Ok (Z.of_nat (length pre), layout (pre ++ x :: rest ++ [l]) spare).
Proof.
  intros Hl Hcap. rewrite !length_app in Hcap. cbn [length] in Hcap.
  unfold Emplace, layout. step.
  rewrite !length_app. cbn [length].
  rewrite to_size_t_small by size_lia.
  match goal with |- context [?a =? ?b] => replace (a =? b) with false by lia end.
  unfold InsertWithoutAlloc. step.
  match goal with |- context [?a =? ?b] => replace (a =? b) with false by lia end.
  rewrite !fmap_app, <- !app_assoc. cbn [fmap list_fmap app].
  rewrite replicate_S.
  rewrite (app_assoc (Some <$> pre)).
  rewrite (deref_live ((Some <$> pre) ++ (Some <$> rest)))
    by (rewrite length_app, !length_fmap; lia).
  step. rewrite Hl.
  replace (Z.to_nat (0 + Z.of_nat (length pre + (length rest + 1)) - 1))
    with (length ((Some <$> pre) ++ (Some <$> rest)))
    by (rewrite length_app, !length_fmap; lia).
  rewrite insert_middle.
  rewrite (snoc_cons _ (None :: replicate spare None)).
  rewrite (construct_at_middle (((Some <$> pre) ++ (Some <$> rest)) ++ [Some (moved_from l)]))
    by (rewrite !length_app, !length_fmap; simpl; lia).
  step.
  rewrite <- !app_assoc. cbn [app].
  destruct (move_backward_shift_right (E:=Vector T) rest (Some <$> pre) (moved_from l)
              (Some l :: replicate spare None)
              (0 + (Z.of_nat (length pre) - 0))
              (0 + Z.of_nat (length pre + (length rest + 1)) - 1)
              (0 + Z.of_nat (length pre + (length rest + 1))))
    as [h' Hmove]; [rewrite length_fmap; lia | lia | lia |].
  rewrite Hmove. step.
  unfold assert.
  match goal with |- context [?a <? ?b] => replace (a <? b) with true by lia end.
  rewrite orb_true_r.
  rewrite (assign_at_live (Some <$> pre)) by (rewrite length_fmap; lia).
  step.
  rewrite to_size_t_small by size_lia.
  f_equal. f_equal; [lia|].
  rewrite fmap_app, <- app_assoc, length_app. cbn [length].
  f_equal; [f_equal|]; lia.
Qed.

Lemma Emplace_layout_realloc pre rest x :
  Forall never_throws (pre ++ rest) ->
  can_allocate (Z.of_nat (grown (length (pre ++ rest)))) ->
  Emplace (Z.of_nat (length pre)) (Some x) (layout (pre ++ rest) 0)
  = Ok (Z.of_nat (length pre),
        layout (pre ++ x :: rest) (grown (length (pre ++ rest)) - S (length (pre ++ rest)))).
Proof.
  intros Hok Halloc.
  assert (Hcap : Z.of_nat (grown (length (pre ++ rest))) < 2 ^ SIZE_WIDTH)
    by (apply can_allocate_bound; [lia|done]).
  assert (Hgrown : (length (pre ++ rest) < grown (length (pre ++ rest)))%nat)
    by (unfold grown; destruct (length (pre ++ rest)); lia).
  assert (Hn : length (pre ++ rest) = (length pre + length rest)%nat)
    by apply length_app.
  apply Forall_app in Hok as [Hpre Hrest].
  unfold Emplace, layout. step.
  rewrite to_size_t_small by size_lia.
  match goal with |- context [?a =? ?b] => replace (a =? b) with true by lia end.
  unfold InsertWithAlloc. step.
  replace (if Z.of_nat (length (pre ++ rest)) =? 0 then 1
           else to_size_t (2 * Z.of_nat (length (pre ++ rest))))
    with (Z.of_nat (grown (length (pre ++ rest)))).
  2:{ unfold grown in *. destruct (length (pre ++ rest)) as [|n]; [done|].
      replace (Z.of_nat (S n) =? 0) with false by lia.
      rewrite to_size_t_small by size_lia. lia. }
  rewrite RawMemory_new_ok by (done || lia). step.
  rewrite !to_size_t_small by size_lia.
  set (N := grown (length (pre ++ rest))) in *.
  rewrite Nat2Z.id.
  replace N with (length pre + S (length rest + (N - S (length (pre ++ rest)))))%nat at 1
    by (rewrite length_app; lia).
  set (M := (N - S (length (pre ++ rest)))%nat).
  rewrite replicate_add, replicate_S.
  rewrite (construct_at_middle (replicate (length pre) None))
    by (rewrite length_replicate; lia).
  step.
  rewrite fmap_app, <- app_assoc. change (replicate 0 None) with (@nil (option T)).
  (* the two segments, whichever way they are relocated *)
  destruct (relocate_ok (is_nothrow_move_constructible || negb is_copy_constructible)
              pre [] ((Some <$> rest) ++ []) [] (replicate (length pre) None)
              (Some x :: replicate (length rest + M) None)
              0 (Z.of_nat (length pre) - 0) 0)
    as (pre' & Hlen1 & Hrel1); [done | by rewrite length_replicate | done | lia | done |].
  rewrite !app_nil_l in Hrel1.
  destruct (relocate_ok (is_nothrow_move_constructible || negb is_copy_constructible)
              rest (Some <$> pre') [] ((Some <$> pre) ++ [Some x])
              (replicate (length rest) None) (replicate M None)
              (0 + (Z.of_nat (length pre) - 0))
              (0 + Z.of_nat (length (pre ++ rest)) - Z.of_nat (length pre))
              (0 + (Z.of_nat (length pre) - 0) + 1))
    as (rest' & Hlen2 & Hrel2);
    [done | by rewrite length_replicate | rewrite length_fmap; lia
    | rewrite length_app; lia | rewrite length_app, length_fmap; simpl; lia |].
  rewrite <- (app_assoc (Some <$> pre) [Some x]) in Hrel2. cbn [app] in Hrel2.
  rewrite <- replicate_add in Hrel2.
  destruct (is_nothrow_move_constructible || negb is_copy_constructible);
    rewrite Hrel1; cbn [try_catch bind]; rewrite Hrel2; step;
    rewrite (app_assoc (Some <$> pre')), <- fmap_app;
    rewrite (destroy_n_live (pre' ++ rest') [] [])
      by (rewrite ?length_app; simpl; lia);
    step; rewrite to_size_t_small by size_lia;
    (f_equal; f_equal; [lia|]; unfold layout;
     rewrite fmap_app, fmap_cons, <- !app_assoc, !length_app; cbn [length app];
     f_equal; [f_equal|]; lia).
Qed.

Lemma grown_max n : Z.of_nat (grown n) = Z.max 1 (2 * Z.of_nat n).
Proof. unfold grown. destruct n; lia. Qed.

Lemma split_at xs (p : nat) :
  (p <= length xs)%nat -> xs = take p xs ++ drop p xs /\ length (take p xs) = p.
Proof. intros. rewrite take_drop, length_take. split; [done|lia]. Qed.

(** [Emplace] on a well-formed vector, at a position within it. *)
Lemma Emplace_represents v xs pos x :
  represents v xs -> 0 <= pos <= Size v ->
  Forall never_throws xs ->
  (Size v = Capacity v -> can_allocate (Z.max 1 (2 * Size v))) ->
  exists v',
    Emplace pos (Some x) v = Ok (pos, v')
    /\ represents v' (take (Z.to_nat pos) xs ++ x :: drop (Z.to_nat pos) xs)
    /\ Capacity v' = (if Size v =? Capacity v then Z.max 1 (2 * Capacity v) else Capacity v).
Proof.
  intros (spare & -> & Hcap)%represents_inv Hpos Hok Halloc.
  unfold Size, Capacity, RawMemory_Capacity in Hpos, Halloc |- *. cbn [layout size_ data_ capacity_] in *.
  destruct (split_at xs (Z.to_nat pos)) as [Hxs Hlen]; [lia|].
  set (pre := take (Z.to_nat pos) xs) in *. set (rest := drop (Z.to_nat pos) xs) in *.
  clearbody pre rest. subst xs.
  replace pos with (Z.of_nat (length pre)) by lia. clear Hlen Hpos pos.
  assert (Hn : length (pre ++ x :: rest) = S (length (pre ++ rest)))
    by (rewrite !length_app; simpl; lia).
  destruct spare as [|spare].
  - (* full: reallocation *)
    rewrite Nat.add_0_r in *.
    specialize (Halloc eq_refl). rewrite <- grown_max in Halloc.
    assert (Hbound : Z.of_nat (grown (length (pre ++ rest))) < 2 ^ SIZE_WIDTH)
      by (apply can_allocate_bound; [lia|done]).
    assert (length (pre ++ rest) < grown (length (pre ++ rest)))%nat
      by (unfold grown; destruct (length (pre ++ rest)); lia).
    eexists. split; [by apply Emplace_layout_realloc|]. split.
    + apply represents_layout. lia.
    + replace (_ =? _) with true by lia. rewrite <- grown_max.
      cbn [layout data_ capacity_]. lia.
  - (* room left: in place *)
    clear Halloc.
    destruct rest as [|l rest _] using rev_ind.
    + rewrite app_nil_r in *.
      eexists. split; [by apply Emplace_layout_back|]. split.
      * apply represents_layout. rewrite length_app. simpl. lia.
      * replace (_ =? _) with false by lia.
        cbn [layout data_ capacity_]. rewrite length_app. simpl. lia.
    + apply Forall_app in Hok as [_ Hok]. apply Forall_app in Hok as [_ Hok].
      apply Forall_singleton in Hok as [_ Hl].
      eexists. split; [by apply Emplace_layout_inside|]. split.
      * apply represents_layout. lia.
      * replace (_ =? _) with false by lia.
        cbn [layout data_ capacity_]. lia.
Qed.

(** [Erase] on a well-formed vector, at the position of one of its
    elements. *)
Lemma Erase_represents v xs pos :
  represents v xs -> 0 <= pos < Size v ->
  exists v',
    Erase pos v = Ok (pos, v')
    /\ represents v' (take (Z.to_nat pos) xs ++ drop (S (Z.to_nat pos)) xs)
    /\ Capacity v' = Capacity v
    /\ buffer_ (data_ v') !! Z.to_nat (Size v - 1) = Some None.
Proof.
  intros (spare & -> & Hcap)%represents_inv Hpos.
  unfold Size, Capacity, RawMemory_Capacity in Hpos |- *. cbn [layout size_ data_ capacity_] in *.
  destruct (lookup_lt_is_Some_2 xs (Z.to_nat pos)) as [y Hy]; [lia|].
  pose proof (take_drop_middle _ _ _ Hy) as Hxs.
  assert (Hlen : length (take (Z.to_nat pos) xs) = Z.to_nat pos)
    by (rewrite length_take; lia).
  set (pre := take (Z.to_nat pos) xs) in *. set (rest := drop (S (Z.to_nat pos)) xs) in *.
  clearbody pre rest. subst xs.
  replace pos with (Z.of_nat (length pre)) by lia. clear Hlen Hpos Hy pos.
  assert (Hn : length (pre ++ y :: rest) = S (length (pre ++ rest)))
    by (rewrite !length_app; simpl; lia).
  eexists. split; [by apply Erase_layout|]. split; [|split].
  - apply represents_layout. lia.
  - cbn [layout data_ capacity_]. lia.
  - cbn [layout data_ buffer_].
    replace (Z.to_nat (Z.of_nat (length (pre ++ y :: rest)) - 1))
      with (length (Some <$> pre ++ rest)) by (rewrite length_fmap; lia).
    by rewrite lookup_app_r, Nat.sub_diag.
Qed.

Lemma Reserve_represents v xs new_capacity :
  represents v xs -> Forall never_throws xs ->
  Capacity v < new_capacity -> can_allocate new_capacity ->
  exists v',
    Reserve new_capacity v = Ok v' /\ represents v' xs /\ Capacity v' = new_capacity.
Proof.
  intros (spare & -> & Hcap)%represents_inv Hok Hlt Halloc.
  unfold Capacity, RawMemory_Capacity in *. cbn [layout data_ capacity_] in *.
  assert (new_capacity < 2 ^ SIZE_WIDTH) by (apply can_allocate_bound; [lia|done]).
  eexists. split; [by apply Reserve_layout|]. split.
  - apply represents_layout. lia.
  - cbn [layout data_ capacity_]. lia.
Qed.

(** Reading an element of a well-formed vector. *)
Lemma deref_represents {E} v xs (i : nat) x :
  represents v xs -> xs !! i = Some x ->
  deref (E:=E) (buffer_ (data_ v)) (Z.of_nat i) = Ok x.
Proof.
  intros (spare & -> & Hcap)%represents_inv Hx.
  pose proof (lookup_lt_Some _ _ _ Hx) as Hi.
  cbn [layout data_ buffer_].
  rewrite <- (take_drop_middle _ _ _ Hx), fmap_app, fmap_cons, <- app_assoc.
  apply deref_live. rewrite length_fmap, length_take. lia.
Qed.

Lemma Vector_index_represents v xs (i : nat) x :
  represents v xs -> xs !! i = Some x -> Vector_index v (Z.of_nat i) = Ok x.
Proof.
  intros Hv Hx. rewrite <- (deref_represents (E:=unit) v xs i x Hv Hx).
  destruct (represents_inv _ _ Hv) as (spare & -> & Hcap).
  pose proof (lookup_lt_Some _ _ _ Hx) as Hi.
  unfold Vector_index, RawMemory_index, assert. cbn [layout size_ data_ capacity_ buffer_].
  replace (Z.of_nat i <? Z.of_nat (length xs)) with true by lia.
  replace (Z.of_nat i <? Z.of_nat (length xs + spare)) with true by lia.
  by rewrite !orb_true_r.
Qed.

(** The constructors establish the invariant, and [PopBack] keeps it. *)
Lemma Vector_default_represents : represents (@Vector_default T) [].
Proof. split; [done|]. by cbn. Qed.

Lemma Vector_new_ok size :
  0 <= size -> (0 < size -> can_allocate size) ->
  Vector_new size = Ok (layout (replicate (Z.to_nat size) value_init) 0).
Proof.
  intros Hsize Halloc. unfold Vector_new.
  destruct (Z.eq_dec size 0) as [-> | Hpos].
  - done.
  - rewrite RawMemory_new_ok by (auto with lia). step.
    pose proof (uninitialized_value_construct_n_over (E:=unit)
                  (replicate (Z.to_nat size) None) [] [] 0 size) as Hbuild.
    rewrite app_nil_l, !app_nil_r, length_replicate in Hbuild.
    rewrite Hbuild by (simpl; lia). step.
    unfold layout. rewrite length_replicate, fmap_replicate, Nat.add_0_r, app_nil_r.
    do 2 f_equal; [f_equal|]; lia.
Qed.

Lemma PopBack_represents v xs x :
  represents v (xs ++ [x]) ->
  exists v', PopBack v = Ok v' /\ represents v' xs /\ Capacity v' = Capacity v.
Proof.
  intros (spare & -> & Hcap)%represents_inv.
  rewrite length_app in Hcap. cbn [length] in Hcap.
  exists (layout xs (S spare)). split; [|split].
  - unfold PopBack, layout. step. rewrite length_app. cbn [length].
    rewrite fmap_app, <- app_assoc.
    rewrite (destroy_n_live [x] (Some <$> xs)) by (rewrite ?length_fmap; simpl; lia).
    step. rewrite to_size_t_small by size_lia.
    cbn [length replicate app]. do 2 f_equal; [f_equal|]; lia.
  - apply represents_layout. lia.
  - unfold Capacity, RawMemory_Capacity. cbn [layout data_ capacity_].
    rewrite length_app. cbn [length]. lia.
Qed.

(** *** A constructor that throws while [InsertWithAlloc] relocates *)

Section RelocationFailure.
(** [prim] is [uninitialized_move_n] or [uninitialized_copy_n], and [throws]
    tells the objects on which its constructor throws. *)
Variable prim : block T -> Z -> Z -> block T -> Z ->
                outcome (block T * block T) (block T * block T).
Variable throws : T -> bool.

Hypothesis prim_ok : forall ys spre spost dpre dmid dpost first n d_first,
  Forall (fun x => throws x = false) ys ->
  length dmid = length ys ->
  first = Z.of_nat (length spre) -> n = Z.of_nat (length ys) ->
  d_first = Z.of_nat (length dpre) ->
  exists ys', length ys' = length ys /\
    prim (spre ++ (Some <$> ys) ++ spost) first n (dpre ++ dmid ++ dpost) d_first
    = Ok (spre ++ (Some <$> ys') ++ spost, dpre ++ (Some <$> ys) ++ dpost).

Hypothesis prim_throw : forall ys1 t ys2 spre spost dst first n d_first,
  Forall (fun x => throws x = false) ys1 -> throws t = true ->
  first = Z.of_nat (length spre) -> n = Z.of_nat (length (ys1 ++ t :: ys2)) ->
  0 <= d_first -> d_first + n <= Z.of_nat (length dst) ->
  exists ys' dst',
    length ys' = length (ys1 ++ t :: ys2) /\ length dst' = length dst /\
    prim (spre ++ (Some <$> ys1 ++ t :: ys2) ++ spost) first n dst d_first
    = Throw (spre ++ (Some <$> ys') ++ spost, dst').

Lemma no_thrower ys :
  Forall (fun x => throws x = false) ys -> Exists (fun x => throws x = true) ys -> False.
Proof.
  intros Hall (y & Hy & Ht)%Exists_exists.
  rewrite Forall_forall in Hall. specialize (Hall y Hy). congruence.
Qed.

(** The two segments and the [destroy_n] that follows them, when some
    constructor throws: whatever the segment, the handler has destroyed
    objects that [destroy_n(begin(), size_)] then destroys again. *)
Lemma relocate_around_failure {E' A} pre rest (nb : block T)
    (f : block T * block T -> E') (K : block T -> block T -> outcome E' A) :
  Exists (fun y => throws y = true) (pre ++ rest) ->
  (length pre + length rest + 1 <= length nb)%nat ->
  (let* (old2, new2) :=
     unwind f
       (let* (old1, new1) :=
          try_catch
            (prim ((Some <$> pre) ++ (Some <$> rest) ++ []) 0 (Z.of_nat (length pre)) nb 0)
            (fun '(old, new) =>
               let* old' := destroy_n old 0 (Z.of_nat (length pre)) in Ok (old', new)) in
        try_catch
          (prim old1 (Z.of_nat (length pre)) (Z.of_nat (length rest))
             new1 (Z.of_nat (length pre) + 1))
          (fun '(old, new) =>
             let* old' := destroy_n old (Z.of_nat (length pre)) (Z.of_nat (length rest)) in
             Ok (old', new))) in
   let* old3 := destroy_n old2 0 (Z.of_nat (length (pre ++ rest))) in
   K old3 new2)
  = Undefined.
Proof.
  intros Hex Hnb. apply Exists_app in Hex.
  destruct (first_thrower throws pre) as [Hpre | (p1 & t & p2 & -> & Hp1 & Ht)].
  - (* the first segment is relocated, the second throws *)
    destruct Hex as [Hex | Hex]; [by destruct (no_thrower pre)|].
    destruct (first_thrower throws rest) as [Hrest | (r1 & u & r2 & -> & Hr1 & Hu)];
      [by destruct (no_thrower rest)|].
    destruct (prim_ok pre [] ((Some <$> r1 ++ u :: r2) ++ [])
                [] (take (length pre) nb) (drop (length pre) nb)
                0 (Z.of_nat (length pre)) 0)
      as (pre' & Hlen1 & Hrel1); [done | rewrite length_take; lia | done..|].
    rewrite !app_nil_l, take_drop in Hrel1. rewrite Hrel1. cbn [try_catch bind].
    destruct (prim_throw r1 u r2 (Some <$> pre') []
                ((Some <$> pre) ++ drop (length pre) nb)
                (Z.of_nat (length pre)) (Z.of_nat (length (r1 ++ u :: r2)))
                (Z.of_nat (length pre) + 1))
      as (rest' & dst' & Hlen2 & _ & Hthrow);
      [done | done | rewrite length_fmap; lia | done | lia
      | rewrite !length_app, length_fmap, length_drop in *; cbn [length] in *; lia |].
    rewrite Hthrow. cbn [try_catch].
    rewrite (destroy_n_live rest' (Some <$> pre') [])
      by (rewrite ?length_fmap; lia).
    cbn [bind unwind].
    rewrite length_app in Hlen2. cbn [length] in Hlen2.
    destruct rest' as [|r rest']; [simpl in Hlen2; lia|]. cbn [length replicate app].
    rewrite <- (app_nil_l ((Some <$> pre') ++ _)).
    rewrite (destroy_n_raw pre' []) by (rewrite ?length_app; simpl; lia).
    done.
  - (* the first segment throws *)
    clear Hex.
    destruct (prim_throw p1 t p2 [] ((Some <$> rest) ++ []) nb
                0 (Z.of_nat (length (p1 ++ t :: p2))) 0)
      as (pre' & dst' & Hlen1 & Hdst & Hthrow); [done.. | lia |].
    rewrite !app_nil_l in Hthrow. rewrite Hthrow. cbn [try_catch].
    rewrite <- (app_nil_l ((Some <$> pre') ++ _)).
    rewrite (destroy_n_live pre' [] ((Some <$> rest) ++ [])) by (simpl; lia).
    cbn [bind]. rewrite app_nil_l.
    assert (Hraw : forall (post : list (option T)) n, 0 < n ->
              destroy_n (E:=E') (replicate (length pre') None ++ post) 0 n = Undefined).
    { intros post n Hn. rewrite length_app in Hlen1. cbn [length] in Hlen1.
      destruct pre' as [|p pre']; [simpl in Hlen1; lia|]. cbn [length replicate app].
      by apply (destroy_n_raw [] []). }
    destruct (first_thrower throws rest) as [Hrest | (r1 & u & r2 & -> & Hr1 & Hu)].
    + destruct (prim_ok rest (replicate (length pre') None) []
                  (take (length (p1 ++ t :: p2) + 1) dst')
                  (take (length rest) (drop (length (p1 ++ t :: p2) + 1) dst'))
                  (drop (length rest) (drop (length (p1 ++ t :: p2) + 1) dst'))
                  (Z.of_nat (length (p1 ++ t :: p2))) (Z.of_nat (length rest))
                  (Z.of_nat (length (p1 ++ t :: p2)) + 1))
        as (rest' & Hlen2 & Hrel2);
        [done | length_lia | length_lia | done | length_lia |].
      rewrite !take_drop in Hrel2. rewrite Hrel2. cbn [try_catch bind unwind].
      rewrite Hraw by length_lia. done.
    + destruct (prim_throw r1 u r2 (replicate (length pre') None) [] dst'
                  (Z.of_nat (length (p1 ++ t :: p2))) (Z.of_nat (length (r1 ++ u :: r2)))
                  (Z.of_nat (length (p1 ++ t :: p2)) + 1))
        as (rest' & dst'' & Hlen2 & _ & Hthrow2);
        [done | done | length_lia | done | lia | length_lia |].
      rewrite Hthrow2. cbn [try_catch].
      rewrite (destroy_n_live rest' (replicate (length pre') None) [])
        by (rewrite ?length_replicate; lia).
      cbn [bind unwind].
      rewrite Hraw by length_lia. done.
Qed.

End RelocationFailure.

(** X10. On a full vector, whatever the position, a constructor that throws
    while the elements are relocated makes [Emplace] undefined: the handlers
    of [InsertWithAlloc] destroy objects of the old buffer that
    [destroy_n(begin(), size_)] then destroys again, and the exception never
    leaves the call. *)
Lemma Emplace_relocation_failure v xs pos x :
  represents v xs -> Size v = Capacity v -> 0 <= pos <= Size v ->
  can_allocate (Z.max 1 (2 * Size v)) ->
  Exists (fun y => relocation_throws y = true) xs ->
  Emplace pos (Some x) v = Undefined.
Proof.
  intros (spare & -> & _)%represents_inv Hfull Hpos Halloc Hex.
  unfold Size, Capacity, RawMemory_Capacity in *. cbn [layout size_ data_ capacity_] in *.
  destruct spare as [|spare]; [|lia]. clear Hfull.
  destruct (split_at xs (Z.to_nat pos)) as [Hxs Hlen]; [lia|].
  set (pre := take (Z.to_nat pos) xs) in *. set (rest := drop (Z.to_nat pos) xs) in *.
  clearbody pre rest. subst xs.
  replace pos with (Z.of_nat (length pre)) by lia. clear Hlen Hpos pos.
  rewrite <- grown_max in Halloc.
  assert (Hcap : Z.of_nat (grown (length (pre ++ rest))) < 2 ^ SIZE_WIDTH)
    by (apply can_allocate_bound; [lia|done]).
  assert (Hgrown : (length (pre ++ rest) < grown (length (pre ++ rest)))%nat)
    by (unfold grown; destruct (length (pre ++ rest)); lia).
  assert (Hn : length (pre ++ rest) = (length pre + length rest)%nat)
    by apply length_app.
  unfold Emplace, layout. step.
  rewrite to_size_t_small by size_lia.
  match goal with |- context [?a =? ?b] => replace (a =? b) with true by lia end.
  unfold InsertWithAlloc. step.
  replace (if Z.of_nat (length (pre ++ rest)) =? 0 then 1
           else to_size_t (2 * Z.of_nat (length (pre ++ rest))))
    with (Z.of_nat (grown (length (pre ++ rest)))).
  2:{ unfold grown in *. destruct (length (pre ++ rest)) as [|n]; [done|].
      replace (Z.of_nat (S n) =? 0) with false by lia.
      rewrite to_size_t_small by size_lia. lia. }
  rewrite RawMemory_new_ok by (done || lia). step.
  rewrite !to_size_t_small by size_lia.
  set (N := grown (length (pre ++ rest))) in *.
  rewrite Nat2Z.id.
  replace N with (length pre + S (length rest + (N - S (length (pre ++ rest)))))%nat at 1
    by lia.
  rewrite replicate_add, replicate_S.
  rewrite (construct_at_middle (replicate (length pre) None))
    by (rewrite length_replicate; lia).
  step.
  rewrite fmap_app, <- app_assoc. change (replicate 0 None) with (@nil (option T)).
  rewrite !Z.add_0_l, !Z.sub_0_r.
  replace (Z.of_nat (length (pre ++ rest)) - Z.of_nat (length pre))
    with (Z.of_nat (length rest)) by lia.
  unfold relocation_throws in Hex.
  destruct (is_nothrow_move_constructible || negb is_copy_constructible).
  - rewrite (relocate_around_failure uninitialized_move_n move_throws); try done.
    + intros. by apply uninitialized_move_n_ok.
    + intros. by apply uninitialized_move_n_throw.
    + length_lia.
  - rewrite (relocate_around_failure uninitialized_copy_n copy_throws); try done.
    + intros. by apply uninitialized_copy_n_ok.
    + intros. by apply uninitialized_copy_n_throw.
    + length_lia.
Qed.

(** X11. [Resize] to a size not above the current one keeps the first
    [new_size] elements, destroys the others and leaves the capacity as it
    was. *)
Lemma Resize_shrink v xs new_size :
  represents v xs -> 0 <= new_size <= Size v ->
  exists v',
    Resize new_size v = Ok v'
    /\ represents v' (take (Z.to_nat new_size) xs)
    /\ Capacity v' = Capacity v.
Proof.
  intros (spare & -> & Hcap)%represents_inv Hn.
  unfold Size, Capacity, RawMemory_Capacity in *. cbn [layout size_ data_ capacity_] in *.
  destruct (split_at xs (Z.to_nat new_size)) as [Hxs Hlen]; [lia|].
  set (pre := take (Z.to_nat new_size) xs) in *.
  set (rest := drop (Z.to_nat new_size) xs) in *.
  clearbody pre rest. subst xs. rewrite length_app in *.
  exists (layout pre (length rest + spare)).
  split; [|split].
  - unfold Resize, layout. step.
    replace (Z.of_nat (length (pre ++ rest) + spare) <? new_size) with false
      by (rewrite length_app; lia).
    rewrite to_size_t_small by (rewrite length_app; size_lia).
    rewrite fmap_app, <- app_assoc.
    rewrite (destroy_n_live rest (Some <$> pre))
      by (rewrite ?length_fmap, ?length_app; lia).
    step. rewrite <- replicate_add, length_app.
    do 2 f_equal; [f_equal|]; lia.
  - apply represents_layout. lia.
  - cbn [layout data_ capacity_]. lia.
Qed.

(** [Resize] of the vector [Vector()] to a positive size: [new_size]
    value-initialised elements. *)
Lemma Resize_from_empty new_size :
  0 < new_size -> can_allocate new_size ->
  Resize new_size Vector_default
  = Ok (layout (replicate (Z.to_nat new_size) value_init) 0).
Proof.
  intros Hn Halloc.
  assert (new_size < 2 ^ SIZE_WIDTH) by (apply can_allocate_bound; [lia|done]).
  unfold Resize, Vector_default, RawMemory_default. step.
  replace (0 <? new_size) with true by lia.
  change {| data_ := {| buffer_ := []; capacity_ := 0 |}; size_ := 0 |}
    with (layout (T:=T) [] 0).
  rewrite Reserve_layout by (done || (simpl; lia)).
  unfold layout. step. cbn [length fmap list_fmap app].
  rewrite to_size_t_small by size_lia.
  rewrite Nat.sub_0_r, Z.sub_0_r.
  pose proof (uninitialized_value_construct_n_over (E:=Vector T)
                (replicate (Z.to_nat new_size) None) [] [] 0 new_size) as Hbuild.
  rewrite app_nil_l, !app_nil_r, length_replicate in Hbuild.
  rewrite Hbuild by (simpl; lia).
  step. rewrite length_replicate, fmap_replicate, Nat.add_0_r, app_nil_r.
  do 2 f_equal. lia.
Qed.

(** X13. [Resize] to a size above the current one and within the capacity
    takes the branch that destroys [size_ - new_size] objects, a count that
    has wrapped around: undefined behaviour. *)
Lemma Resize_grow_within_capacity v xs new_size :
  represents v xs -> Size v < new_size <= Capacity v ->
  Resize new_size v = Undefined.
Proof.
  intros (spare & -> & Hcap)%represents_inv Hn.
  unfold Size, Capacity, RawMemory_Capacity in *. cbn [layout size_ data_ capacity_] in *.
  unfold Resize, layout, destroy_n. step.
  replace (Z.of_nat (length xs + spare) <? new_size) with false by lia.
  rewrite valid_range_false; [done|].
  right. right. rewrite length_app, length_fmap, length_replicate.
  unfold to_size_t.
  replace (Z.of_nat (length xs) - new_size)
    with (Z.of_nat (length xs) - new_size + 2 ^ SIZE_WIDTH + (-1) * 2 ^ SIZE_WIDTH) by lia.
  rewrite Z.mod_add by done.
  rewrite Z.mod_small by size_lia. lia.
Qed.

(** X14. [Resize] of a vector that holds something to a size beyond its
    capacity builds the new objects from slot 0 on: the first element is
    overwritten by a value-initialised one and the last slot of the new
    range is left raw. *)
Lemma Resize_grow_beyond_capacity v xs new_size :
  represents v xs -> xs <> [] ->
  Forall never_throws xs ->
  Capacity v < new_size -> can_allocate new_size ->
  exists v',
    Resize new_size v = Ok v'
    /\ Size v' = new_size
    /\ buffer_ (data_ v') !! 0%nat = Some (Some value_init)
    /\ buffer_ (data_ v') !! Z.to_nat (new_size - 1) = Some None.
Proof.
  intros (spare & -> & Hcap)%represents_inv Hne Hok Hn Halloc.
  unfold Size, Capacity, RawMemory_Capacity in *. cbn [layout size_ data_ capacity_] in *.
  assert (new_size < 2 ^ SIZE_WIDTH) by (apply can_allocate_bound; [lia|done]).
  assert (0 < length xs)%nat by (destruct xs; [done|simpl; lia]).
  unfold Resize. step. cbn [layout size_ data_ capacity_].
  replace (Z.of_nat (length xs + spare) <? new_size) with true by lia.
  rewrite Reserve_layout by done.
  unfold layout. step.
  rewrite to_size_t_small by size_lia.
  set (m := (Z.to_nat new_size - length xs)%nat).
  set (b := (Some <$> xs) ++ replicate m None).
  assert (Hb : length b = (length xs + m)%nat)
    by (unfold b; rewrite length_app, length_fmap, length_replicate; lia).
  pose proof (uninitialized_value_construct_n_over (E:=Vector T)
                (take m b) [] (drop m b) 0 (new_size - Z.of_nat (length xs))) as Hbuild.
  rewrite !app_nil_l, take_drop, length_take, Nat.min_l in Hbuild by lia.
  rewrite Hbuild by (simpl; lia).
  step.
  eexists. split; [done|]. cbn [size_ data_ buffer_].
  split; [done|]. split.
  - rewrite lookup_app_l by (rewrite length_replicate; lia).
    apply lookup_replicate_2. lia.
  - rewrite lookup_app_r by (rewrite length_replicate; lia).
    rewrite length_replicate, lookup_drop. unfold b.
    rewrite lookup_app_r by (rewrite length_fmap; lia).
    rewrite length_fmap. apply lookup_replicate_2. lia.
Qed.

(** *** Copies *)

Lemma UninitializedData_copies v (from to : RawMemory T) :
  UninitializedData v from to
  = uninitialized_copy_n (buffer_ from) (GetAddress from) (size_ v)
      (buffer_ to) (GetAddress to).
Proof. unfold UninitializedData, uninitialized_move_n_const. by destruct (_ || _). Qed.

Lemma RawMemory_new_length xs :
  (xs <> [] -> can_allocate (Z.of_nat (length xs))) ->
  RawMemory_new (Z.of_nat (length xs))
  = Ok {| buffer_ := replicate (length xs) None; capacity_ := Z.of_nat (length xs) |}.
Proof.
  intros Halloc. destruct xs as [|x xs]; [done|].
  rewrite RawMemory_new_ok, Nat2Z.id by (auto || (simpl; lia)). done.
Qed.

Lemma Vector_copy_ctor_layout xs spare :
  Forall (fun x => copy_throws x = false) xs ->
  (xs <> [] -> can_allocate (Z.of_nat (length xs))) ->
  Vector_copy_ctor (layout xs spare) = Ok (layout xs 0).
Proof.
  intros Hok Halloc. unfold Vector_copy_ctor.
  cbn [layout size_ data_ buffer_].
  rewrite RawMemory_new_length by done. cbn [bind].
  rewrite UninitializedData_copies. step.
  destruct (uninitialized_copy_n_ok xs [] (replicate spare None)
              [] (replicate (length xs) None) []
              0 (Z.of_nat (length xs)) 0)
    as (ys' & _ & Hcopy); [done | by rewrite length_replicate | done..|].
  rewrite !app_nil_l, !app_nil_r in Hcopy. rewrite Hcopy. step.
  unfold layout. cbn [replicate]. by rewrite Nat.add_0_r, app_nil_r.
Qed.

(** A copy constructor that throws: no vector is made. *)
Lemma Vector_copy_ctor_throw ys1 t ys2 spare :
  Forall (fun x => copy_throws x = false) ys1 -> copy_throws t = true ->
  can_allocate (Z.of_nat (length (ys1 ++ t :: ys2))) ->
  Vector_copy_ctor (layout (ys1 ++ t :: ys2) spare) = Throw tt.
Proof.
  intros Hok Ht Halloc. unfold Vector_copy_ctor.
  cbn [layout size_ data_ buffer_].
  rewrite RawMemory_new_ok by (done || length_lia). cbn [bind].
  rewrite UninitializedData_copies. step.
  destruct (uninitialized_copy_n_throw ys1 t ys2 [] (replicate spare None)
              (replicate (Z.to_nat (Z.of_nat (length (ys1 ++ t :: ys2)))) None)
              0 (Z.of_nat (length (ys1 ++ t :: ys2))) 0)
    as (ys' & dst' & _ & _ & Hcopy);
    [done | done | done | done | done | rewrite length_replicate; lia |].
  rewrite app_nil_l in Hcopy. rewrite Hcopy. done.
Qed.

Lemma Vector_dtor_layout {E} xs spare : Vector_dtor (E:=E) (layout xs spare) = Ok tt.
Proof.
  unfold Vector_dtor. cbn [layout size_ data_ buffer_].
  destruct (negb _); [|done]. unfold GetAddress.
  rewrite (destroy_n_live xs [] (replicate spare None)) by done. done.
Qed.

(** Copy assignment from a vector that does not fit: copy and swap. *)
Lemma Vector_copy_assign_grow (st : list (Vector T)) this rhs xs spare ys spare' :
  st !! this = Some (layout xs spare) -> st !! rhs = Some (layout ys spare') ->
  this <> rhs ->
  (length xs + spare < length ys)%nat ->
  Forall (fun x => copy_throws x = false) ys ->
  can_allocate (Z.of_nat (length ys)) ->
  Vector_copy_assign this rhs st = Ok (<[this := layout ys 0]> st).
Proof.
  intros Ht Hr Hne Hlt Hok Halloc. unfold Vector_copy_assign. rewrite Ht, Hr.
  replace (Nat.eqb this rhs) with false by (symmetry; by apply Nat.eqb_neq).
  cbn [negb layout size_ data_ capacity_ RawMemory_Capacity].
  replace (Z.of_nat (length xs + spare) <? Z.of_nat (length ys)) with true by lia.
  change {| data_ := {| buffer_ := (Some <$> ys) ++ replicate spare' None;
                        capacity_ := Z.of_nat (length ys + spare') |};
            size_ := Z.of_nat (length ys) |} with (layout ys spare').
  rewrite Vector_copy_ctor_layout by (done || (intros _; done)).
  cbn [unwind bind].
  change (Vector_Swap _ (layout ys 0))
    with (layout ys 0, layout xs spare).
  cbv beta iota zeta. by rewrite Vector_dtor_layout.
Qed.

(** Copy assignment from a shorter vector: assign, then destroy the rest. *)
Lemma Vector_copy_assign_shrink (st : list (Vector T)) this rhs xs1 xs2 spare ys spare' :
  st !! this = Some (layout (xs1 ++ xs2) spare) -> st !! rhs = Some (layout ys spare') ->
  this <> rhs ->
  length xs1 = length ys -> xs2 <> [] ->
  Z.of_nat (length (xs1 ++ xs2) + spare) < 2 ^ SIZE_WIDTH ->
  Vector_copy_assign this rhs st
  = Ok (<[this := layout ys (length xs2 + spare)]> st).
Proof.
  intros Ht Hr Hne Hlen Hxs2 Hcap. unfold Vector_copy_assign. rewrite Ht, Hr.
  replace (Nat.eqb this rhs) with false by (symmetry; by apply Nat.eqb_neq).
  assert (0 < length xs2)%nat by (destruct xs2; [done|simpl; lia]).
  rewrite length_app in Hcap.
  cbn [negb layout size_ data_ capacity_ buffer_ RawMemory_Capacity]. step.
  rewrite length_app.
  replace (Z.of_nat (length xs1 + length xs2 + spare) <? Z.of_nat (length ys))
    with false by lia.
  replace (Z.of_nat (length ys) <? Z.of_nat (length xs1 + length xs2)) with true by lia.
  rewrite to_size_t_small by size_lia.
  rewrite fmap_app, <- app_assoc.
  pose proof (copy_n_ok (E:=list (Vector T)) ys xs1 [] (replicate spare' None)
                [] ((Some <$> xs2) ++ replicate spare None)
                0 (Z.of_nat (length ys)) 0 Hlen eq_refl eq_refl eq_refl) as Hcopy.
  rewrite !app_nil_l in Hcopy. rewrite Hcopy. step.
  rewrite (destroy_n_live xs2 (Some <$> ys)) by (rewrite ?length_fmap; lia).
  step. unfold layout. cbn [data_ capacity_].
  rewrite <- replicate_add, length_app.
  by replace (Z.of_nat (length xs1 + length xs2 + spare))
    with (Z.of_nat (length ys + (length xs2 + spare))) by lia.
Qed.

(** Copy assignment from a vector at least as long that fits: assign, then
    construct the rest. *)
Lemma Vector_copy_assign_extend (st : list (Vector T)) this rhs xs spare ys1 ys2 spare' :
  st !! this = Some (layout xs spare) -> st !! rhs = Some (layout (ys1 ++ ys2) spare') ->
  this <> rhs ->
  length ys1 = length xs -> (length ys2 <= spare)%nat ->
  Forall (fun x => copy_throws x = false) ys2 ->
  Z.of_nat (length xs + spare) < 2 ^ SIZE_WIDTH ->
  Vector_copy_assign this rhs st
  = Ok (<[this := layout (ys1 ++ ys2) (spare - length ys2)]> st).
Proof.
  intros Ht Hr Hne Hlen Hfit Hok Hcap. unfold Vector_copy_assign. rewrite Ht, Hr.
  replace (Nat.eqb this rhs) with false by (symmetry; by apply Nat.eqb_neq).
  cbn [negb layout size_ data_ capacity_ buffer_ RawMemory_Capacity]. step.
  rewrite length_app.
  replace (Z.of_nat (length xs + spare) <? Z.of_nat (length ys1 + length ys2))
    with false by lia.
  replace (Z.of_nat (length ys1 + length ys2) <? Z.of_nat (length xs)) with false by lia.
  rewrite to_size_t_small by size_lia.
  rewrite fmap_app, <- app_assoc.
  pose proof (copy_n_ok (E:=list (Vector T)) ys1 xs []
                ((Some <$> ys2) ++ replicate spare' None) [] (replicate spare None)
                0 (Z.of_nat (length xs)) 0
                (eq_sym Hlen) eq_refl (f_equal Z.of_nat (eq_sym Hlen)) eq_refl) as Hcopy.
  rewrite !app_nil_l in Hcopy. rewrite Hcopy. step.
  replace spare with (length ys2 + (spare - length ys2))%nat at 1 by lia.
  rewrite replicate_add.
  destruct (uninitialized_copy_n_ok ys2 (Some <$> ys1) (replicate spare' None)
              (Some <$> ys1) (replicate (length ys2) None)
              (replicate (spare - length ys2) None)
              (0 + Z.of_nat (length xs))
              (Z.of_nat (length ys1 + length ys2) - Z.of_nat (length xs))
              (0 + Z.of_nat (length xs)))
    as (ys' & _ & Hbuild);
    [done | by rewrite length_replicate | rewrite length_fmap; lia | lia
    | rewrite length_fmap; lia |].
  rewrite Hbuild. step. unfold layout. cbn [data_ capacity_].
  rewrite fmap_app, <- app_assoc, length_app.
  by replace (Z.of_nat (length xs + spare))
    with (Z.of_nat (length ys1 + length ys2 + (spare - length ys2))) by lia.
Qed.

(** *** Appending *)

Lemma represents_unique v1 v2 xs :
  represents v1 xs -> represents v2 xs -> Capacity v1 = Capacity v2 -> v1 = v2.
Proof.
  unfold Capacity, RawMemory_Capacity. intros [H1 _] [H2 _] Hcap.
  rewrite H1, H2. by rewrite Hcap.
Qed.

Lemma PushBack_represents v xs x :
  represents v xs -> never_throws x -> Forall never_throws xs ->
  (Size v = Capacity v -> can_allocate (Z.max 1 (2 * Size v))) ->
  exists v',
    PushBack x v = Ok v'
    /\ represents v' (xs ++ [x])
    /\ Capacity v' = (if Size v =? Capacity v then Z.max 1 (2 * Capacity v) else Capacity v).
Proof.
  intros Hv [Hc _] Hok Halloc.
  pose proof (represents_size _ _ Hv) as Hsize.
  destruct (Emplace_represents v xs (Size v) x Hv ltac:(lia) Hok Halloc)
    as (v' & He & Hv' & Hcap').
  rewrite Hsize, Nat2Z.id, take_ge, drop_ge in Hv' by lia.
  assert (Hx : (xs ++ [x]) !! length xs = Some x) by by apply list_lookup_middle.
  exists v'. split; [|done].
  unfold PushBack, EmplaceBack, copy_construct, end_, GetAddress.
  rewrite Hc, Z.add_0_l. unfold Size in He, Hsize. rewrite He. cbn [bind].
  by rewrite Hsize, (deref_represents v' _ _ x Hv' Hx).
Qed.

(** Appending within the capacity never reallocates. *)
Lemma PushBack_each_within_capacity ys : forall v xs,
  represents v xs -> Forall never_throws (xs ++ ys) ->
  Z.of_nat (length xs + length ys) <= Capacity v ->
  exists v',
    PushBack_each ys v = Ok v' /\ represents v' (xs ++ ys) /\ Capacity v' = Capacity v.
Proof.
  induction ys as [|y ys IH]; intros v xs Hv Hok Hroom.
  - exists v. by rewrite app_nil_r.
  - pose proof (represents_size _ _ Hv) as Hsize. cbn [length] in Hroom.
    pose proof Hok as [Hxs [Hy Hys]%Forall_cons]%Forall_app.
    destruct (PushBack_represents v xs y Hv Hy Hxs ltac:(lia)) as (v1 & Hp & Hv1 & Hcap1).
    replace (Size v =? Capacity v) with false in Hcap1 by lia.
    destruct (IH v1 (xs ++ [y]) Hv1) as (v' & Heach & Hv' & Hcap').
    + by rewrite <- app_assoc.
    + rewrite length_app. cbn [length]. lia.
    + exists v'. cbn [PushBack_each]. rewrite Hp. cbn [bind].
      rewrite <- app_assoc in Hv'. split; [done|]. split; [done|lia].
Qed.

(** Appending to a vector whose capacity is 0 or a power of two below twice
    its size keeps it so. *)
Lemma PushBack_each_doubling ys : forall v xs,
  represents v xs -> Forall never_throws (xs ++ ys) ->
  (forall n, 0 < n <= 2 * Z.of_nat (length xs + length ys) -> can_allocate n) ->
  (xs = [] /\ Capacity v = 0) \/
    (Capacity v < 2 * Size v /\ exists k : nat, Capacity v = 2 ^ Z.of_nat k) ->
  exists v',
    PushBack_each ys v = Ok v' /\ represents v' (xs ++ ys)
    /\ ((xs ++ ys = [] /\ Capacity v' = 0) \/
        (Capacity v' < 2 * Size v' /\ exists k : nat, Capacity v' = 2 ^ Z.of_nat k)).
Proof.
  induction ys as [|y ys IH]; intros v xs Hv Hok Halloc Hinv.
  - exists v. rewrite app_nil_r. split; [done|]. by split.
  - pose proof (represents_size _ _ Hv) as Hsize. cbn [length] in Halloc.
    pose proof Hok as [Hxs [Hy Hys]%Forall_cons]%Forall_app.
    assert (Hle : Size v <= Capacity v).
    { destruct (represents_inv _ _ Hv) as (spare & -> & _).
      unfold Size, Capacity, RawMemory_Capacity. cbn [layout size_ data_ capacity_]. lia. }
    destruct (PushBack_represents v xs y Hv Hy Hxs) as (v1 & Hp & Hv1 & Hcap1).
    { intros _. apply Halloc. lia. }
    pose proof (represents_size _ _ Hv1) as Hsize1.
    rewrite length_app in Hsize1. cbn [length] in Hsize1.
    destruct (IH v1 (xs ++ [y]) Hv1) as (v' & Heach & Hv' & Hinv').
    + by rewrite <- app_assoc.
    + intros n Hn. apply Halloc. rewrite length_app in Hn. cbn [length] in Hn. lia.
    + right. destruct (Z.eqb_spec (Size v) (Capacity v)) as [Hfull|Hroom].
      * destruct Hinv as [[-> Hcap0] | [Hlt [k Hk]]].
        -- rewrite Hcap0 in Hcap1. split; [cbn in *; lia|]. by exists 0%nat.
        -- split; [lia|]. exists (S k).
           rewrite Hcap1, Nat2Z.inj_succ, Z.pow_succ_r, <- Hk by lia. lia.
      * destruct Hinv as [[-> Hcap0] | [Hlt [k Hk]]]; [cbn in *; lia|].
        split; [lia|]. exists k. lia.
    + exists v'. cbn [PushBack_each]. rewrite Hp. cbn [bind].
      rewrite <- app_assoc in Hv', Hinv'. split; [done|]. by split.
Qed.

End VectorFacts.

(** * The properties of the specification *)

Section Properties.
Context {T : Type} `{Elem T} `{Platform}.
Implicit Types (v : Vector T) (xs : list T) (x y : T).

(** C3. On a well-formed vector and for a position [0 <= pos <= size],
    [Emplace(pos, args...)] (and [Insert(pos, x)], which is [Emplace] with
    the copy or the move constructor) returns the address of the new
    element, [begin() + pos]; the size has grown by exactly one; reading
    index [pos] gives the new element; every element previously at an
    index [i >= pos] is now at [i + 1], and the ones before [pos] have not
    moved.  This is for elements whose constructors do not throw and, when
    the vector is full, for a heap that serves the grown buffer. *)
Theorem Emplace_Insert_spec v xs pos x :
  represents v xs -> 0 <= pos <= Size v ->
  Forall never_throws xs ->
  (Size v = Capacity v -> can_allocate (Z.max 1 (2 * Size v))) ->
  exists v',
    Emplace (begin v + pos) (Some x) v = Ok (begin v' + pos, v')
    /\ (never_throws x ->
        Insert (begin v + pos) x v = Ok (begin v' + pos, v')
        /\ Insert_rvalue (begin v + pos) x v = Ok (begin v' + pos, v'))
    /\ Size v' = Size v + 1
    /\ Vector_index v' pos = Ok x
    /\ (forall (i : nat) y, xs !! i = Some y -> pos <= Z.of_nat i ->
          Vector_index v' (Z.of_nat i + 1) = Ok y)
    /\ (forall (i : nat) y, xs !! i = Some y -> Z.of_nat i < pos ->
          Vector_index v' (Z.of_nat i) = Ok y)
    /\ represents v' (take (Z.to_nat pos) xs ++ x :: drop (Z.to_nat pos) xs).
Proof.
  intros Hv Hpos Hok Halloc.
  pose proof (represents_size _ _ Hv) as Hsize.
  destruct (Emplace_represents v xs pos x Hv Hpos Hok Halloc) as (v' & He & Hv' & _).
  pose proof (represents_size _ _ Hv') as Hsize'.
  rewrite length_app, length_take in Hsize'. cbn [length] in Hsize'.
  rewrite length_drop in Hsize'.
  exists v'. unfold begin, GetAddress. rewrite !Z.add_0_l.
  split; [done|]. split; [|split; [lia|split; [|split; [|split; [|done]]]]].
  - intros [Hc Hm]. unfold Insert, Insert_rvalue, copy_construct, move_construct.
    by rewrite Hc, Hm.
  - rewrite <- (Z2Nat.id pos) at 1 by lia.
    apply (Vector_index_represents _ _ _ _ Hv'), inserted_lookup_eq. lia.
  - intros i y Hy Hi.
    replace (Z.of_nat i + 1) with (Z.of_nat (S i)) by lia.
    apply (Vector_index_represents _ _ _ _ Hv').
    rewrite inserted_lookup_ge by lia. done.
  - intros i y Hy Hi.
    apply (Vector_index_represents _ _ _ _ Hv').
    rewrite inserted_lookup_lt by lia. done.
Qed.

(** C4. On a well-formed vector and for a position [pos < size],
    [Erase(pos)] decrements the size by exactly one; every element
    previously at an index [i > pos] is now at [i - 1], and the ones before
    [pos] have not moved; the last slot, vacated, is raw memory again. *)
Theorem Erase_spec v xs pos :
  represents v xs -> 0 <= pos < Size v ->
  exists it v',
    Erase (begin v + pos) v = Ok (it, v')
    /\ Size v' = Size v - 1
    /\ (forall (i : nat) y, xs !! i = Some y -> pos < Z.of_nat i ->
          Vector_index v' (Z.of_nat i - 1) = Ok y)
    /\ (forall (i : nat) y, xs !! i = Some y -> Z.of_nat i < pos ->
          Vector_index v' (Z.of_nat i) = Ok y)
    /\ buffer_ (data_ v') !! Z.to_nat (Size v - 1) = Some None
    /\ represents v' (take (Z.to_nat pos) xs ++ drop (S (Z.to_nat pos)) xs).
Proof.
  intros Hv Hpos.
  pose proof (represents_size _ _ Hv) as Hsize.
  destruct (Erase_represents v xs pos Hv Hpos) as (v' & He & Hv' & _ & Hlast).
  pose proof (represents_size _ _ Hv') as Hsize'.
  rewrite length_app, length_take, length_drop in Hsize'.
  exists pos, v'. unfold begin, GetAddress. rewrite Z.add_0_l.
  split; [done|]. split; [lia|]. split; [|split; [|done]].
  - intros i y Hy Hi.
    replace (Z.of_nat i - 1) with (Z.of_nat (Nat.pred i)) by lia.
    apply (Vector_index_represents _ _ _ _ Hv').
    rewrite removed_lookup_ge by lia.
    by replace (S (Nat.pred i)) with i by lia.
  - intros i y Hy Hi.
    apply (Vector_index_represents _ _ _ _ Hv').
    rewrite removed_lookup_lt by lia. done.
Qed.

(** C10. On a well-formed vector and for a position [pos < size],
    [Erase(pos)] returns [begin() + pos]: the iterator designates the
    element that followed the erased one, or is [end()] when the last
    element was erased. *)
Theorem Erase_returns_position v xs pos :
  represents v xs -> 0 <= pos < Size v ->
  exists v',
    Erase (begin v + pos) v = Ok (begin v' + pos, v')
    /\ (forall y, xs !! S (Z.to_nat pos) = Some y ->
          Vector_index v' (begin v' + pos) = Ok y)
    /\ (pos = Size v - 1 -> begin v' + pos = end_ v').
Proof.
  intros Hv Hpos.
  pose proof (represents_size _ _ Hv) as Hsize.
  destruct (Erase_represents v xs pos Hv Hpos) as (v' & He & Hv' & _).
  pose proof (represents_size _ _ Hv') as Hsize'.
  rewrite length_app, length_take, length_drop in Hsize'.
  exists v'. unfold begin, end_, GetAddress, Size in *. rewrite !Z.add_0_l.
  split; [done|]. split.
  - intros y Hy. rewrite <- (Z2Nat.id pos) by lia.
    apply (Vector_index_represents _ _ _ _ Hv').
    rewrite removed_lookup_ge by lia. done.
  - lia.
Qed.

(** C5. On a well-formed vector, [Insert(pos, x)] at a position
    [0 <= pos <= size] followed by [Erase] at the iterator [Insert] returned
    leaves a vector holding the sequence it held before the [Insert]. *)
Theorem Insert_Erase_roundtrip v xs pos x :
  represents v xs -> 0 <= pos <= Size v ->
  Forall never_throws (x :: xs) ->
  (Size v = Capacity v -> can_allocate (Z.max 1 (2 * Size v))) ->
  exists it v1 it' v2,
    Insert (begin v + pos) x v = Ok (it, v1)
    /\ Erase it v1 = Ok (it', v2)
    /\ represents v2 xs
    /\ Size v2 = Size v.
Proof.
  intros Hv Hpos [[Hc Hm] Hok]%Forall_cons Halloc.
  pose proof (represents_size _ _ Hv) as Hsize.
  destruct (Emplace_represents v xs pos x Hv Hpos Hok Halloc) as (v1 & He & Hv1 & _).
  pose proof (represents_size _ _ Hv1) as Hsize1.
  rewrite length_app, length_take in Hsize1. cbn [length] in Hsize1.
  rewrite length_drop in Hsize1.
  destruct (Erase_represents v1 _ pos Hv1 ltac:(lia)) as (v2 & Hr & Hv2 & _).
  rewrite removed_inserted in Hv2 by lia.
  exists pos, v1, pos, v2.
  unfold Insert, copy_construct, begin, GetAddress. rewrite Hc, Z.add_0_l.
  split; [done|]. split; [done|]. split; [done|].
  rewrite (represents_size _ _ Hv2). lia.
Qed.

(** C6. On a well-formed and full vector ([size == capacity]),
    [EmplaceBack] and [PushBack] grow the capacity to
    [max(1, 2 * capacity)], construct the new element at slot [size] and
    increment the size by one; the elements already there are kept. *)
Theorem PushBack_full_grows v xs x :
  represents v xs -> Size v = Capacity v ->
  Forall never_throws xs ->
  can_allocate (Z.max 1 (2 * Capacity v)) ->
  exists v',
    EmplaceBack (Some x) v = Ok (x, v')
    /\ (never_throws x -> PushBack x v = Ok v' /\ PushBack_rvalue x v = Ok v')
    /\ Capacity v' = Z.max 1 (2 * Capacity v)
    /\ Vector_index v' (Size v) = Ok x
    /\ Size v' = Size v + 1
    /\ represents v' (xs ++ [x]).
Proof.
  intros Hv Hfull Hok Halloc.
  pose proof (represents_size _ _ Hv) as Hsize.
  destruct (Emplace_represents v xs (Size v) x Hv ltac:(lia) Hok
              ltac:(by intros _; rewrite Hfull))
    as (v' & He & Hv' & Hcap').
  replace (Size v =? Capacity v) with true in Hcap' by lia.
  rewrite Hsize, Nat2Z.id, take_ge, drop_ge in Hv' by lia.
  pose proof (represents_size _ _ Hv') as Hsize'.
  rewrite length_app in Hsize'. cbn [length] in Hsize'.
  assert (Hx : (xs ++ [x]) !! length xs = Some x) by by apply list_lookup_middle.
  assert (Hback : EmplaceBack (Some x) v = Ok (x, v')).
  { unfold EmplaceBack, end_, GetAddress. rewrite Z.add_0_l.
    unfold Size in He, Hsize. rewrite He. cbn [bind].
    rewrite Hsize, (deref_represents v' _ _ x Hv' Hx). done. }
  exists v'. split; [done|]. split; [|split; [done|split; [|split; [lia|done]]]].
  - intros [Hc Hm]. unfold PushBack, PushBack_rvalue, copy_construct, move_construct.
    by rewrite Hc, Hm, Hback.
  - rewrite Hsize. by apply (Vector_index_represents _ _ _ _ Hv').
Qed.

(** C7. On a well-formed vector, [Reserve(new_capacity)] changes nothing
    when [new_capacity <= capacity()]; otherwise the capacity becomes
    exactly [new_capacity], and the size and the elements are kept.  In no
    case, not even when the allocation or a constructor throws, is the
    capacity decreased. *)
Theorem Reserve_spec v xs new_capacity :
  represents v xs ->
  Forall never_throws xs ->
  (Capacity v < new_capacity -> can_allocate new_capacity) ->
  (exists v',
    Reserve new_capacity v = Ok v'
    /\ (new_capacity <= Capacity v -> v' = v)
    /\ (Capacity v < new_capacity -> Capacity v' = new_capacity)
    /\ Size v' = Size v
    /\ represents v' xs
    /\ Capacity v <= Capacity v')
  /\ (forall w n,
        match Reserve n w with
        | Ok w' | Throw w' => Capacity w <= Capacity w'
        | _ => True
        end).
Proof.
  intros Hv Hok Halloc. split.
  - destruct (Z.le_gt_cases new_capacity (Capacity v)) as [Hle | Hgt].
    + exists v. unfold Reserve. fold (Capacity v).
      replace (new_capacity <=? Capacity v) with true by lia.
      split; [done|]. split; [done|]. split; [lia|]. split; [done|]. split; [done|lia].
    + destruct (Reserve_represents v xs new_capacity Hv Hok Hgt (Halloc Hgt))
        as (v' & Hr & Hv' & Hcap').
      exists v'. rewrite (represents_size _ _ Hv), (represents_size _ _ Hv').
      split; [done|]. split; [lia|]. split; [done|]. split; [done|]. split; [done|lia].
  - intros w n. unfold Reserve. fold (Capacity w).
    destruct (Z.leb_spec n (Capacity w)) as [Hle | Hgt]; [lia|].
    unfold RawMemory_new.
    destruct (Allocate n) as [b| | |]; cbn [bind unwind]; [|lia|done|done].
    destruct (UninitializedNewData _ _) as [[old new]|[old new]| |];
      cbn [bind unwind]; [|unfold Capacity; step; lia|done|done].
    pose proof (destroy_n_nothrow (E:=Vector T) old (GetAddress (data_ w)) (size_ w)) as Hd.
    destruct (destroy_n old _ _) as [old'|e| |]; cbn [bind]; [|by destruct (Hd e)|done..].
    unfold Capacity, RawMemory_Capacity in *. step. lia.
Qed.

(** C8 (as amended). Move construction, and move assignment from another
    object, leave the source with size 0 and the empty buffer (capacity 0);
    the destination then has the size and the very buffer the source had,
    so that no element is constructed, copied or moved.  Move assignment of
    a vector to itself leaves it as it was. *)
Theorem move_leaves_source_empty (other : Vector T) (st : list (Vector T))
    (this rhs : nat) (vt vr : Vector T) :
  st !! this = Some vt -> st !! rhs = Some vr ->
  Vector_move_ctor other = (other, Vector_default)
  /\ Size (@Vector_default T) = 0 /\ Capacity (@Vector_default T) = 0
  /\ buffer_ (data_ (@Vector_default T)) = []
  /\ (this <> rhs ->
      exists st',
        Vector_move_assign this rhs st = Some st'
        /\ st' !! this = Some vr
        /\ st' !! rhs = Some Vector_default
        /\ (forall a, a <> this -> a <> rhs -> st' !! a = st !! a))
  /\ (this = rhs -> Vector_move_assign this rhs st = Some st).
Proof.
  intros Ht Hr.
  split; [by destruct other as [[] ?]|]. do 3 (split; [done|]). split.
  - intros Hne. unfold Vector_move_assign. rewrite Ht, Hr.
    replace (Nat.eqb this rhs) with false by (symmetry; by apply Nat.eqb_neq).
    cbn. eexists. split; [done|].
    pose proof (lookup_lt_Some _ _ _ Ht). pose proof (lookup_lt_Some _ _ _ Hr).
    split; [|split].
    + rewrite list_lookup_insert_ne, list_lookup_insert_eq by done.
      by destruct vr as [[] ?].
    + rewrite list_lookup_insert_eq by (by rewrite length_insert). done.
    + intros a ??. by rewrite !list_lookup_insert_ne.
  - intros <-. unfold Vector_move_assign. by rewrite Ht, Nat.eqb_refl.
Qed.

(** C9 (as amended). Of the precondition violations, indexed access with
    [index >= size] fails an assertion in a debug build.  [PopBack] on an
    empty vector and [Erase] at a position [pos >= size] never do: they have
    undefined behaviour, and on a library that treats the reversed range
    [Erase] hands to [std::move] as empty, [Erase] is [PopBack].  [Emplace]
    (hence [Insert]) at a position [pos > size] has no defined result and
    is not checked against the size.  It fails an assertion, the one of
    [data_[pos_idx]], only in a debug build, on a vector with room left, at
    a position at or beyond the capacity, and where [std::move_backward]
    returns on the reversed range; there it does so as soon as the new
    element and the copy of the last one are built.  On a full vector or at
    a position below the capacity it throws or has undefined behaviour. *)
Theorem precondition_violations v xs :
  represents v xs ->
  (forall index, NDEBUG = false -> Size v <= index -> Vector_index v index = AssertFail)
  /\ (Size v = 0 -> PopBack v = Undefined)
  /\ (forall pos, Size v <= pos < 2 ^ SIZE_WIDTH ->
        Erase (begin v + pos) v
        = (if reversed_range_is_empty
           then let* v' := PopBack v in Ok (begin v + pos, v')
           else Undefined)
        /\ Erase (begin v + pos) v <> AssertFail)
  /\ (forall pos args, Size v < pos < 2 ^ SIZE_WIDTH ->
        match Emplace (begin v + pos) args v with
        | Ok _ => False
        | AssertFail =>
            NDEBUG = false /\ reversed_range_is_empty = true
            /\ Size v < Capacity v <= pos
        | Throw _ | Undefined => True
        end)
  /\ (forall pos tmp l, last xs = Some l -> move_throws l = false ->
        Size v < Capacity v <= pos -> pos < 2 ^ SIZE_WIDTH ->
        Emplace (begin v + pos) (Some tmp) v
        = if reversed_range_is_empty && negb NDEBUG then AssertFail else Undefined).
Proof.
  intros (spare & -> & Hcap)%represents_inv.
  unfold Size, Capacity, RawMemory_Capacity, begin, GetAddress.
  cbn [layout size_ data_ capacity_].
  split; [|split; [|split; [|split]]].
  - intros index Hdebug Hindex. unfold Vector_index, assert. cbn [layout size_].
    rewrite Hdebug. by replace (index <? Z.of_nat (length xs)) with false by lia.
  - intros Hempty. unfold PopBack, destroy_n. step. cbn [layout size_ data_ buffer_].
    rewrite valid_range_false by lia. done.
  - intros pos Hpos. rewrite Z.add_0_l.
    assert (Erase pos (layout xs spare)
            = (if reversed_range_is_empty
               then let* v' := PopBack (layout xs spare) in Ok (pos, v')
               else Undefined)) as Heq.
    { unfold Erase, PopBack, std_move, reversed_range. step.
      cbn [layout size_ data_ buffer_]. rewrite to_size_t_small by size_lia.
      replace (_ - (0 + (pos - 0) + 1) <? 0) with true by lia.
      destruct reversed_range_is_empty; [|done]. cbn [bind].
      unfold set_block, set_size, set_buffer. step.
      destruct (destroy_n _ _ 1); cbn [bind]; try done.
      by rewrite Z.sub_0_r, Z.add_0_l. }
    split; [exact Heq|]. rewrite Heq.
    destruct reversed_range_is_empty; [|done].
    unfold PopBack. destruct (destroy_n _ _ 1) eqn:Hd; try done.
    by apply destroy_n_no_assert in Hd.
  - intros pos args Hpos. rewrite Z.add_0_l.
    unfold Emplace. step. cbn [layout size_ data_ buffer_ capacity_].
    rewrite to_size_t_small by size_lia.
    destruct (Z.eqb_spec (Z.of_nat (length xs)) (Z.of_nat (length xs + spare))) as [Hfull|Hroom].
    + (* full *)
      unfold InsertWithAlloc, RawMemory_new, Allocate. step.
      cbn [layout size_ data_ buffer_ capacity_].
      destruct (_ =? 0); [|destruct (operator_new_ok _)]; cbn [bind unwind]; try done;
        (destruct args as [x|]; [|done]);
        unfold construct_at; (destruct (valid_range _ _ 1); [|done]); cbn [bind];
        rewrite !to_size_t_small by size_lia;
        unfold uninitialized_move_n, uninitialized_copy_n;
        rewrite (valid_range_false _ 0 (pos - 0))
          by (rewrite length_app, length_fmap, length_replicate; lia);
        by destruct (_ || _).
    + (* room left *)
      unfold InsertWithoutAlloc. step. cbn [layout size_ data_ buffer_ capacity_].
      replace (Z.of_nat (length xs) =? pos - 0) with false by lia.
      destruct args as [tmp|]; [|done].
      unfold deref at 1. destruct (valid_range _ _ 1); [|done].
      destruct (_ !! _) as [[l|]|]; [|done..]. cbn [bind].
      destruct (move_throws l); [done|].
      unfold construct_at. destruct (valid_range _ _ 1); [|done]. cbn [bind].
      unfold move_backward, reversed_range. cbv zeta.
      replace (_ <? 0) with true by lia.
      destruct reversed_range_is_empty eqn:Hlib; [|done]. cbn [bind].
      unfold assert. destruct NDEBUG eqn:Hdebug; cbn [orb].
      * rewrite assign_beyond_the_size by lia. done.
      * destruct (Z.ltb_spec (pos - 0) (Z.of_nat (length xs + spare))).
        -- rewrite assign_beyond_the_size by lia. done.
        -- cbn [bind]. repeat split; lia.
  - intros pos tmp l Hl Hmove Hpos Hmax. rewrite Z.add_0_l.
    unfold Emplace. step. cbn [layout size_ data_ buffer_ capacity_].
    rewrite to_size_t_small by size_lia.
    replace (Z.of_nat (length xs) =? Z.of_nat (length xs + spare)) with false by lia.
    unfold InsertWithoutAlloc. step. cbn [layout size_ data_ buffer_ capacity_].
    replace (Z.of_nat (length xs) =? pos - 0) with false by lia.
    rewrite last_lookup in Hl.
    assert (xs <> []) as Hne by (intros ->; discriminate Hl).
    assert (0 < length xs)%nat as Hlen by (destruct xs; [done|simpl; lia]).
    replace (0 + Z.of_nat (length xs) - 1) with (Z.of_nat (pred (length xs))) by lia.
    rewrite (deref_represents (layout xs spare) xs (pred (length xs)) l
               (represents_layout xs spare Hcap) Hl).
    cbn [bind]. rewrite Hmove.
    unfold construct_at. rewrite valid_range_true
      by (rewrite ?length_insert, ?length_app, ?length_fmap, ?length_replicate; lia).
    cbn [bind]. unfold move_backward, reversed_range. cbv zeta.
    replace (_ <? 0) with true by lia.
    destruct reversed_range_is_empty; [|done]. cbn [bind andb].
    unfold assert. destruct NDEBUG; cbn [orb negb].
    + rewrite assign_beyond_the_size by lia. done.
    + by replace (pos - 0 <? Z.of_nat (length xs + spare)) with false by lia.
Qed.

End Properties.

(** * Further properties of the code *)

Section FurtherProperties.
Context {T : Type} `{Elem T} `{Platform}.
Implicit Types (v : Vector T) (xs ys : list T) (x y : T).

(** X1. [Vector(size)] makes a vector of exactly [size] value-initialised
    elements whose capacity is its size. *)
Theorem Vector_new_spec size :
  0 <= size -> (0 < size -> can_allocate size) ->
  exists v,
    Vector_new size = Ok v
    /\ Size v = size /\ Capacity v = size
    /\ represents v (replicate (Z.to_nat size) value_init)
    /\ (forall i, 0 <= i < size -> Vector_index v i = Ok value_init).
Proof.
  intros Hsize Halloc.
  assert (Hbound : size < 2 ^ SIZE_WIDTH).
  { destruct (Z.eq_dec size 0) as [-> | ?]; [done|].
    apply can_allocate_bound; [lia|]. apply Halloc. lia. }
  assert (Hv : represents (layout (replicate (Z.to_nat size) value_init) 0)
                 (replicate (Z.to_nat size) value_init))
    by (apply represents_layout; rewrite length_replicate; lia).
  eexists. split; [by apply Vector_new_ok|].
  unfold Size, Capacity, RawMemory_Capacity. cbn [layout size_ data_ capacity_].
  rewrite length_replicate.
  split; [lia|]. split; [lia|]. split; [done|].
  intros i Hi. rewrite <- (Z2Nat.id i) by lia.
  apply (Vector_index_represents _ _ _ _ Hv), lookup_replicate_2. lia.
Qed.

(** X2. The copy constructor makes a vector with the elements of the other
    one and a capacity equal to the other's size, not to its capacity.  When
    the copy of an element throws, so does the constructor. *)
Theorem Vector_copy_ctor_spec other xs :
  represents other xs ->
  (xs <> [] -> can_allocate (Size other)) ->
  (Forall (fun x => copy_throws x = false) xs ->
   exists v,
     Vector_copy_ctor other = Ok v
     /\ represents v xs /\ Size v = Size other /\ Capacity v = Size other)
  /\ (Exists (fun x => copy_throws x = true) xs -> Vector_copy_ctor other = Throw tt).
Proof.
  intros (spare & -> & Hcap)%represents_inv Halloc.
  unfold Size, Capacity, RawMemory_Capacity in *. cbn [layout size_ data_ capacity_] in *.
  split.
  - intros Hok. eexists. split; [by apply Vector_copy_ctor_layout|].
    cbn [layout size_ data_ capacity_]. split; [apply represents_layout; lia|].
    split; [done|]. f_equal. lia.
  - intros Hex.
    destruct (first_thrower copy_throws xs) as [Hok | (ys1 & t & ys2 & -> & Hok & Ht)].
    + exfalso. apply Exists_exists in Hex as (y & Hy & Hthrow).
      rewrite Forall_forall in Hok. specialize (Hok y Hy). congruence.
    + apply Vector_copy_ctor_throw; [done..|]. apply Halloc. by destruct ys1.
Qed.

(** X3. Copy assignment from another vector leaves the target holding the
    elements of the source, which is untouched.  The target keeps its
    capacity when the source fits in it, and gets a capacity equal to the
    source's size otherwise.  Assigning a vector to itself changes
    nothing. *)
Theorem Vector_copy_assign_spec (st : list (Vector T)) this rhs vt vr xs ys :
  st !! this = Some vt -> st !! rhs = Some vr ->
  represents vt xs -> represents vr ys ->
  Forall (fun y => copy_throws y = false) ys ->
  (Capacity vt < Size vr -> can_allocate (Size vr)) ->
  (this = rhs -> Vector_copy_assign this rhs st = Ok st)
  /\ (this <> rhs ->
      exists vt',
        Vector_copy_assign this rhs st = Ok (<[this := vt']> st)
        /\ represents vt' ys
        /\ Capacity vt' = (if Capacity vt <? Size vr then Size vr else Capacity vt)
        /\ (<[this := vt']> st) !! rhs = Some vr).
Proof.
  intros Ht Hr (spare & -> & Hcapt)%represents_inv (spare' & -> & Hcapr)%represents_inv
    Hok Halloc.
  unfold Size, Capacity, RawMemory_Capacity in *. cbn [layout size_ data_ capacity_] in *.
  split.
  - intros <-. unfold Vector_copy_assign. by rewrite Ht, Nat.eqb_refl.
  - intros Hne.
    assert (Hkeep : forall vt', (<[this := vt']> st) !! rhs = Some (layout ys spare'))
      by (intros; by rewrite list_lookup_insert_ne).
    destruct (Z.ltb_spec (Z.of_nat (length xs + spare)) (Z.of_nat (length ys)))
      as [Hgrow | Hfit].
    + exists (layout ys 0). split; [apply (Vector_copy_assign_grow _ _ _ xs spare ys spare');
                                     auto with lia|].
      split; [apply represents_layout; lia|]. split; [|done].
      cbn [layout data_ capacity_]. f_equal. lia.
    + destruct (Nat.lt_ge_cases (length ys) (length xs)) as [Hshort | Hlong].
      * destruct (split_at xs (length ys)) as [Hxs Hlen]; [lia|].
        set (xs1 := take (length ys) xs) in *. set (xs2 := drop (length ys) xs) in *.
        assert (Hxs2 : xs2 <> []).
        { intros Hnil. rewrite Hnil, app_nil_r in Hxs. rewrite Hxs in Hshort. lia. }
        clearbody xs1 xs2. subst xs. rewrite length_app in *.
        exists (layout ys (length xs2 + spare)).
        split; [apply (Vector_copy_assign_shrink _ _ _ xs1 xs2 spare ys spare');
                rewrite ?length_app; auto with lia|].
        split; [apply represents_layout; lia|]. split; [|done].
        cbn [layout data_ capacity_]. f_equal. lia.
      * destruct (split_at ys (length xs)) as [Hys Hlen]; [lia|].
        set (ys1 := take (length xs) ys) in *. set (ys2 := drop (length xs) ys) in *.
        clearbody ys1 ys2. subst ys. rewrite length_app in *.
        apply Forall_app in Hok as [_ Hok2].
        exists (layout (ys1 ++ ys2) (spare - length ys2)).
        split; [apply (Vector_copy_assign_extend _ _ _ xs spare ys1 ys2 spare');
                auto with lia|].
        split; [apply represents_layout; rewrite length_app; lia|]. split; [|done].
        cbn [layout data_ capacity_]. rewrite length_app. f_equal. lia.
Qed.

(** X4. [PopBack] on a vector that holds something removes the last element
    and nothing else: the size decreases by one, the elements before the
    last are read as before, the capacity is kept and the vacated slot is
    raw memory again. *)
Theorem PopBack_spec v xs x :
  represents v (xs ++ [x]) ->
  exists v',
    PopBack v = Ok v'
    /\ Size v' = Size v - 1 /\ Capacity v' = Capacity v
    /\ represents v' xs
    /\ (forall (i : nat) y, xs !! i = Some y -> Vector_index v' (Z.of_nat i) = Ok y)
    /\ buffer_ (data_ v') !! length xs = Some None.
Proof.
  intros Hv. pose proof (represents_size _ _ Hv) as Hsize.
  rewrite length_app in Hsize. cbn [length] in Hsize.
  destruct (PopBack_represents v xs x Hv) as (v' & Hp & Hv' & Hcap).
  exists v'. split; [done|]. rewrite (represents_size _ _ Hv').
  split; [lia|]. split; [done|]. split; [done|]. split.
  - intros i y Hy. by apply (Vector_index_represents _ _ _ _ Hv').
  - destruct (represents_inv _ _ Hv) as (spare & Hl & _).
    destruct (represents_inv _ _ Hv') as (spare' & Hl' & _).
    rewrite Hl, Hl' in Hcap. unfold Capacity, RawMemory_Capacity in Hcap.
    cbn [layout data_ capacity_] in Hcap. rewrite length_app in Hcap. cbn [length] in Hcap.
    rewrite Hl'. cbn [layout data_ buffer_].
    rewrite lookup_app_r by (rewrite length_fmap; lia).
    rewrite length_fmap, Nat.sub_diag. apply lookup_replicate_2. lia.
Qed.

(** X5. Indexed access within the size returns the element, in a debug and
    in a release build.  In a release build, where the assertions are
    compiled out, an index at or beyond the size reads raw memory or memory
    outside the buffer: undefined behaviour. *)
Theorem Vector_index_spec v xs :
  represents v xs ->
  (forall (i : nat) x, xs !! i = Some x -> Vector_index v (Z.of_nat i) = Ok x)
  /\ (NDEBUG = true -> forall index, Size v <= index -> Vector_index v index = Undefined).
Proof.
  intros Hv. split; [intros i x; by apply Vector_index_represents|].
  destruct (represents_inv _ _ Hv) as (spare & -> & _).
  intros Hrelease index Hindex.
  unfold Size, Vector_index, RawMemory_index, assert, deref in *.
  cbn [layout size_ data_ buffer_ capacity_] in *. rewrite Hrelease. cbn [orb].
  destruct (valid_range _ _ _); [|done].
  rewrite lookup_app_r by (rewrite length_fmap; lia).
  destruct (replicate spare None !! _) as [[y|]|] eqn:Hlook; [|done..].
  by apply lookup_replicate_1 in Hlook as [? _].
Qed.

(** X6. After [Reserve(n)], appending elements up to a size of [n] never
    changes the capacity: no [PushBack] reallocates. *)
Theorem Reserve_then_PushBack_keeps_capacity v xs ys n :
  represents v xs -> Forall never_throws (xs ++ ys) ->
  Capacity v < n -> can_allocate n ->
  Z.of_nat (length xs + length ys) <= n ->
  exists v1 v',
    Reserve n v = Ok v1
    /\ PushBack_each ys v1 = Ok v'
    /\ represents v' (xs ++ ys)
    /\ Capacity v' = n.
Proof.
  intros Hv Hok Hlt Halloc Hroom.
  pose proof Hok as [Hxs _]%Forall_app.
  destruct (Reserve_represents v xs n Hv Hxs Hlt Halloc) as (v1 & Hr & Hv1 & Hcap1).
  destruct (PushBack_each_within_capacity ys v1 xs Hv1 Hok ltac:(lia))
    as (v' & Hp & Hv' & Hcap').
  exists v1, v'. split; [done|]. split; [done|]. split; [done|lia].
Qed.

(** X7. Appending elements one by one to an empty vector leaves a vector
    that holds them in order, whose capacity is a power of two, at least its
    size and less than twice its size. *)
Theorem PushBack_each_from_empty ys :
  ys <> [] -> Forall never_throws ys ->
  (forall n, 0 < n <= 2 * Z.of_nat (length ys) -> can_allocate n) ->
  exists v',
    PushBack_each ys Vector_default = Ok v'
    /\ represents v' ys
    /\ Size v' <= Capacity v' < 2 * Size v'
    /\ exists k : nat, Capacity v' = 2 ^ Z.of_nat k.
Proof.
  intros Hne Hok Halloc.
  destruct (PushBack_each_doubling ys Vector_default [] Vector_default_represents Hok Halloc)
    as (v' & Hp & Hv' & Hinv); [by left|].
  cbn [app] in *. destruct Hinv as [[? _] | [Hlt Hpow]]; [done|].
  exists v'. split; [done|]. split; [done|]. split; [|done].
  split; [|done].
  destruct (represents_inv _ _ Hv') as (spare & -> & _).
  unfold Size, Capacity, RawMemory_Capacity. cbn [layout size_ data_ capacity_]. lia.
Qed.

(** X8. [Reserve] beyond the capacity leaves the vector exactly as it was
    when it throws because the allocation fails, or because, the elements
    being relocated by copy, the copy of one of them throws. *)
Theorem Reserve_failure_leaves_vector v xs n :
  represents v xs -> Capacity v < n ->
  (operator_new_ok (to_size_t (n * sizeof)) = false -> Reserve n v = Throw v)
  /\ (can_allocate n ->
      is_nothrow_move_constructible || negb is_copy_constructible = false ->
      Exists (fun x => copy_throws x = true) xs ->
      Reserve n v = Throw v).
Proof.
  intros (spare & -> & Hcap)%represents_inv Hlt.
  unfold Capacity, RawMemory_Capacity in *. cbn [layout data_ capacity_] in *.
  split.
  - intros Hheap. unfold Reserve, RawMemory_new, Allocate.
    cbn [layout data_ capacity_ RawMemory_Capacity].
    replace (n <=? Z.of_nat (length xs + spare)) with false by lia.
    replace (n =? 0) with false by lia. by rewrite Hheap.
  - intros Halloc Htrait Hex.
    destruct (first_thrower copy_throws xs) as [Hok | (ys1 & t & ys2 & -> & Hok & Ht)].
    { exfalso. apply Exists_exists in Hex as (y & Hy & Hthrow).
      rewrite Forall_forall in Hok. specialize (Hok y Hy). congruence. }
    unfold Reserve. cbn [layout data_ capacity_ RawMemory_Capacity].
    replace (n <=? Z.of_nat (length (ys1 ++ t :: ys2) + spare)) with false by lia.
    rewrite RawMemory_new_ok by (done || lia). cbn [bind unwind].
    unfold UninitializedNewData. rewrite Htrait. step. cbn [layout size_ data_ buffer_].
    pose proof (uninitialized_copy_n_source
                  ((Some <$> ys1 ++ t :: ys2) ++ replicate spare None)
                  (replicate (Z.to_nat n) None)
                  0 (Z.of_nat (length (ys1 ++ t :: ys2))) 0) as Hsrc.
    destruct (uninitialized_copy_n_throw ys1 t ys2 [] (replicate spare None)
                (replicate (Z.to_nat n) None)
                0 (Z.of_nat (length (ys1 ++ t :: ys2))) 0)
      as (ys' & dst' & _ & _ & Hcopy);
      [done | done | done | done | done | rewrite length_replicate; lia |].
    rewrite app_nil_l in Hcopy. rewrite Hcopy in Hsrc |- *. cbn [unwind bind].
    rewrite app_nil_l in Hsrc. by rewrite Hsrc.
Qed.

(** X9. When the constructor of the new element throws, [Emplace], [Insert]
    and [PushBack] throw and leave the vector exactly as it was, whatever
    its state and the position; so does [Emplace] on a full vector when the
    allocation of the grown buffer fails. *)
Theorem Emplace_construction_failure v pos x :
  Emplace pos None v = Throw v
  /\ (copy_throws x = true -> Insert pos x v = Throw v /\ PushBack x v = Throw v)
  /\ (Size v = Capacity v -> 0 <= Size v -> 2 * Size v < 2 ^ SIZE_WIDTH ->
      operator_new_ok (to_size_t (Z.max 1 (2 * Size v) * sizeof)) = false ->
      forall args, Emplace pos args v = Throw v).
Proof.
  assert (Hnone : forall pos, Emplace pos None v = Throw v).
  { intros p. unfold Emplace, InsertWithAlloc, InsertWithoutAlloc, RawMemory_new, Allocate.
    destruct (size_ v =? Capacity v).
    - destruct (_ =? 0); [done|]. by destruct (operator_new_ok _).
    - by destruct (size_ v =? _). }
  split; [done|]. split.
  - intros Hx. unfold PushBack, EmplaceBack, Insert, copy_construct.
    rewrite Hx, !Hnone. done.
  - unfold Size. intros Hfull Hpos Hsmall Hheap args.
    unfold Emplace, InsertWithAlloc, RawMemory_new, Allocate.
    replace (size_ v =? Capacity v) with true by lia.
    replace (if size_ v =? 0 then 1 else to_size_t (2 * size_ v))
      with (Z.max 1 (2 * size_ v)).
    2:{ destruct (Z.eqb_spec (size_ v) 0) as [-> | ?]; [done|].
        rewrite to_size_t_small by lia. lia. }
    replace (Z.max 1 (2 * size_ v) =? 0) with false by lia.
    by rewrite Hheap.
Qed.

(** X12. [Resize] of an empty vector to a size beyond its capacity leaves
    exactly [new_size] value-initialised elements, in a buffer of that
    capacity. *)
Theorem Resize_empty_beyond_capacity v new_size :
  represents v [] -> Capacity v < new_size -> can_allocate new_size ->
  Resize new_size v = Ok (layout (replicate (Z.to_nat new_size) value_init) 0).
Proof.
  intros (spare & -> & Hcap)%represents_inv Hlt Halloc.
  unfold Capacity, RawMemory_Capacity in Hlt. cbn [layout data_ capacity_ length] in Hlt.
  assert (new_size < 2 ^ SIZE_WIDTH) by (apply can_allocate_bound; [lia|done]).
  unfold Resize. cbn [layout data_ capacity_ RawMemory_Capacity length].
  replace (Z.of_nat (0 + spare) <? new_size) with true by lia.
  change {| data_ := {| buffer_ := (Some <$> []) ++ replicate spare None;
                        capacity_ := Z.of_nat (0 + spare) |};
            size_ := Z.of_nat 0 |} with (layout (T:=T) [] spare).
  rewrite Reserve_layout by (done || (simpl; lia)).
  unfold layout. step. cbn [length fmap list_fmap app].
  rewrite to_size_t_small by size_lia.
  rewrite Nat.sub_0_r, Z.sub_0_r.
  pose proof (uninitialized_value_construct_n_over (E:=Vector T)
                (replicate (Z.to_nat new_size) None) [] [] 0 new_size) as Hbuild.
  rewrite app_nil_l, !app_nil_r, length_replicate in Hbuild.
  rewrite Hbuild by (simpl; lia).
  step. rewrite length_replicate, fmap_replicate, Nat.add_0_r, app_nil_r.
  do 2 f_equal. lia.
Qed.

(** X15. [RawMemory(n)] computes the byte count [n * sizeof(T)] in [size_t]
    without a check: when the product wraps around and the heap serves the
    wrapped request, the object records the capacity [n] over a block that
    has fewer than [n] slots. *)
Theorem RawMemory_new_overflow n :
  0 < n -> 2 ^ SIZE_WIDTH <= n * sizeof ->
  operator_new_ok (to_size_t (n * sizeof)) = true ->
  exists m : RawMemory T,
    RawMemory_new n = Ok m
    /\ RawMemory_Capacity m = n
    /\ Z.of_nat (length (buffer_ m)) < n.
Proof.
  intros Hn Hwrap Hheap. pose proof sizeof_pos as Hs.
  unfold RawMemory_new, Allocate.
  replace (n =? 0) with false by lia. rewrite Hheap. cbn [bind].
  eexists. split; [done|]. split; [done|]. cbn [buffer_].
  rewrite length_replicate.
  assert (Hbytes : 0 <= to_size_t (n * sizeof) < 2 ^ SIZE_WIDTH)
    by (apply Z.mod_pos_bound; done).
  rewrite Z2Nat.id by (apply Z.div_pos; lia).
  apply Z.div_lt_upper_bound; lia.
Qed.

(** X16. Erasing the last element is [PopBack]: on a vector that holds
    something, [Erase(end() - 1)] leaves the very vector [PopBack] leaves,
    and returns its [end()]. *)
Theorem Erase_last_is_PopBack v xs :
  represents v xs -> 0 < Size v ->
  exists v', PopBack v = Ok v' /\ Erase (end_ v - 1) v = Ok (end_ v', v').
Proof.
  intros Hv Hpos. pose proof (represents_size _ _ Hv) as Hsize.
  destruct xs as [|x xs _] using rev_ind; [simpl in Hsize; lia|].
  rewrite length_app in Hsize. cbn [length] in Hsize.
  destruct (PopBack_represents v xs x Hv) as (v1 & Hp & Hv1 & Hcap1).
  destruct (Erase_represents v _ (Size v - 1) Hv ltac:(lia)) as (v2 & He & Hv2 & Hcap2 & _).
  replace (Z.to_nat (Size v - 1)) with (length xs) in Hv2 by lia.
  rewrite take_app_length, drop_app_ge, Nat.sub_succ_l, Nat.sub_diag in Hv2 by lia.
  cbn [drop] in Hv2. rewrite app_nil_r in Hv2.
  assert (v2 = v1) as -> by (apply (represents_unique _ _ xs); [done..|lia]).
  exists v1. split; [done|].
  unfold end_, GetAddress. rewrite !Z.add_0_l. unfold Size in *.
  rewrite He. do 2 f_equal. rewrite (represents_size _ _ Hv1 : size_ v1 = _). lia.
Qed.

(** X17. [Emplace] at any position keeps the capacity when the vector has
    room left, and makes it [max(1, 2 * capacity)] when the vector is full;
    the size never exceeds the capacity afterwards. *)
Theorem Emplace_capacity v xs pos x :
  represents v xs -> 0 <= pos <= Size v ->
  Forall never_throws xs ->
  (Size v = Capacity v -> can_allocate (Z.max 1 (2 * Size v))) ->
  exists it v',
    Emplace (begin v + pos) (Some x) v = Ok (it, v')
    /\ (Size v < Capacity v -> Capacity v' = Capacity v)
    /\ (Size v = Capacity v -> Capacity v' = Z.max 1 (2 * Capacity v))
    /\ Size v' <= Capacity v'.
Proof.
  intros Hv Hpos Hok Halloc.
  destruct (Emplace_represents v xs pos x Hv Hpos Hok Halloc) as (v' & He & Hv' & Hcap').
  exists pos, v'. unfold begin, GetAddress. rewrite Z.add_0_l.
  split; [done|]. split; [|split].
  - intros Hroom. by replace (Size v =? Capacity v) with false in Hcap' by lia.
  - intros Hfull. by replace (Size v =? Capacity v) with true in Hcap' by lia.
  - destruct (represents_inv _ _ Hv') as (spare & -> & _).
    unfold Size, Capacity, RawMemory_Capacity. cbn [layout size_ data_ capacity_]. lia.
Qed.

(** X18. Copy assignment from a vector that does not fit in the target's
    capacity goes through a copy and a swap: when the copy of an element
    throws, both vectors are exactly as they were. *)
Theorem Vector_copy_assign_failure (st : list (Vector T)) this rhs vt vr xs ys :
  st !! this = Some vt -> st !! rhs = Some vr ->
  represents vt xs -> represents vr ys -> this <> rhs ->
  Capacity vt < Size vr -> can_allocate (Size vr) ->
  Exists (fun y => copy_throws y = true) ys ->
  Vector_copy_assign this rhs st = Throw st.
Proof.
  intros Ht Hr (spare & -> & _)%represents_inv (spare' & -> & _)%represents_inv
    Hne Hlt Halloc Hex.
  unfold Size, Capacity, RawMemory_Capacity in *. cbn [layout size_ data_ capacity_] in *.
  destruct (first_thrower copy_throws ys) as [Hok | (ys1 & t & ys2 & -> & Hok & Hthrow)].
  { exfalso. apply Exists_exists in Hex as (y & Hy & Hty).
    rewrite Forall_forall in Hok. specialize (Hok y Hy). congruence. }
  unfold Vector_copy_assign. rewrite Ht, Hr.
  replace (Nat.eqb this rhs) with false by (symmetry; by apply Nat.eqb_neq).
  cbn [negb layout size_ data_ capacity_ RawMemory_Capacity].
  replace (Z.of_nat (length xs + spare) <? Z.of_nat (length (ys1 ++ t :: ys2)))
    with true by lia.
  change {| data_ := {| buffer_ := (Some <$> ys1 ++ t :: ys2) ++ replicate spare' None;
                        capacity_ := Z.of_nat (length (ys1 ++ t :: ys2) + spare') |};
            size_ := Z.of_nat (length (ys1 ++ t :: ys2)) |}
    with (layout (ys1 ++ t :: ys2) spare').
  by rewrite Vector_copy_ctor_throw.
Qed.

End FurtherProperties.

(** * The operations on [Vector<int>] *)

Section Examples.
Existing Instance debug_platform.

(** The scenario of the specification: three [PushBack], an [Insert], an
    [Erase] and a [PopBack]. *)
Example scenario_push_insert_erase_pop :
  (let* v1 := PushBack 1 Vector_default in
   let* v2 := PushBack 2 v1 in
   let* v3 := PushBack 3 v2 in
   let* (_, v4) := Insert 1 99 v3 in
   let* (_, v5) := Erase 0 v4 in
   PopBack v5)
  = Ok (layout [99; 2] 2).
Proof. reflexivity. Qed.

(** C1. [Resize] beyond the capacity value-constructs the new elements
    from slot 0 on, not from slot [size_] on: on the full vector [[1; 2]],
    [Resize(3)] overwrites the first element with [int()] and leaves the
    exposed slot 2 raw, so reading it is undefined.  A [Resize] that grows
    within the capacity takes the shrinking branch, whose count
    [size_ - new_size] wraps around. *)
Theorem Resize_grow_misplaces_elements :
  Resize 3 (layout [1; 2] 0)
  = Ok {| data_ := {| buffer_ := [Some 0; Some 2; None]; capacity_ := 3 |};
          size_ := 3 |}
  /\ (let* v' := unwind (fun _ => tt) (Resize 3 (layout [1; 2] 0)) in
      Vector_index v' 0) = Ok 0
  /\ (let* v' := unwind (fun _ => tt) (Resize 3 (layout [1; 2] 0)) in
      Vector_index v' 2) = Undefined
  /\ Resize 3 (layout [1; 2] 2) = Undefined.
Proof. repeat split; reflexivity. Qed.

(** C2. When the copy of an element throws while [InsertWithAlloc]
    relocates, the exception does not leave [Emplace]: the handler destroys
    the objects of the old buffer and does not rethrow, and the
    [destroy_n(begin(), size_)] that follows destroys them a second time.
    Here the element 13 cannot be copied.  [std::uninitialized_copy_n]
    itself has destroyed the copy of 7 in the new buffer when it throws;
    [Reserve], on the same vector, lets the exception through and leaves
    the vector as it was. *)
Theorem Emplace_relocation_failure_is_swallowed :
  @uninitialized_copy_n Z throwing_elem [Some 7; Some 13] 0 2 [None; None; Some 5; None] 0
  = Throw ([Some 7; Some 13], [None; None; Some 5; None])
  /\ @Emplace Z throwing_elem debug_platform 2 (Some 5) (layout [7; 13] 0) = Undefined
  /\ @Emplace Z throwing_elem debug_platform 0 (Some 5) (layout [7; 13] 0) = Undefined
  /\ @Reserve Z throwing_elem debug_platform 4 (layout [7; 13] 0) = Throw (layout [7; 13] 0).
Proof. repeat split; reflexivity. Qed.

(** C8, as stated, fails on a self-assignment: [v = std::move(v)] leaves
    the two elements of [v] in place. *)
Lemma move_assign_to_itself_keeps_elements :
  ~ (forall st', Vector_move_assign 0 0 [layout [1; 2] 0] = Some st' ->
       exists src, st' !! 0%nat = Some src /\ Size src = 0 /\ Capacity src = 0).
Proof.
  intros Hclaim. destruct (Hclaim _ eq_refl) as (src & [= <-] & Hsize & _).
  discriminate Hsize.
Qed.

(** C9, as stated, fails on [PopBack], [Erase] and [Insert]: in a debug
    build too, [PopBack] on the empty vector, [Erase(end())], and [Insert]
    past [end()] on a full vector or below the capacity do not fail an
    assertion. *)
Lemma PopBack_empty_is_not_an_assertion_failure :
  NDEBUG = false
  /\ Size (@Vector_default Z) = 0
  /\ PopBack (@Vector_default Z) = Undefined
  /\ PopBack (@Vector_default Z) <> AssertFail
  /\ Erase (end_ (@Vector_default Z)) Vector_default = Undefined
  /\ Erase (end_ (layout [1; 2] 1)) (layout [1; 2] 1) <> AssertFail
  /\ Insert (end_ (layout [1; 2] 0) + 1) 9 (layout [1; 2] 0) = Undefined
  /\ Insert (end_ (layout [1; 2] 2) + 1) 9 (layout [1; 2] 2) = Undefined.
Proof. repeat split; discriminate. Qed.

(** [Insert] at [end() + 1] into [[1, 2]] of capacity 3, in a debug build:
    the in-place branch builds the copy of the last element,
    [std::move_backward] returns on the reversed range, and [data_[3]] fails
    [assert(index < capacity_)]. *)
Lemma Insert_beyond_capacity_fails_the_assertion :
  Insert (end_ (layout [1; 2] 1) + 1) 9 (layout [1; 2] 1) = AssertFail.
Proof. reflexivity. Qed.

(** The theorems above at work on concrete vectors. *)

Lemma Emplace_Insert_spec_witness :
  represents (layout [10; 20] 0) [10; 20]
  /\ 0 <= 1 <= Size (layout [10; 20] 0)
  /\ exists v',
       Emplace (begin (layout [10; 20] 0) + 1) (Some 15) (layout [10; 20] 0)
       = Ok (begin v' + 1, v')
       /\ (never_throws 15 ->
           Insert (begin (layout [10; 20] 0) + 1) 15 (layout [10; 20] 0)
           = Ok (begin v' + 1, v')
           /\ Insert_rvalue (begin (layout [10; 20] 0) + 1) 15 (layout [10; 20] 0)
              = Ok (begin v' + 1, v'))
       /\ Size v' = Size (layout [10; 20] 0) + 1
       /\ Vector_index v' 1 = Ok 15
       /\ (forall (i : nat) y, [10; 20] !! i = Some y -> 1 <= Z.of_nat i ->
             Vector_index v' (Z.of_nat i + 1) = Ok y)
       /\ (forall (i : nat) y, [10; 20] !! i = Some y -> Z.of_nat i < 1 ->
             Vector_index v' (Z.of_nat i) = Ok y)
       /\ represents v' (take (Z.to_nat 1) [10; 20] ++ 15 :: drop (Z.to_nat 1) [10; 20]).
Proof.
  split; [split; reflexivity|]. split; [vm_compute; split; discriminate|].
  apply (Emplace_Insert_spec (layout [10; 20] 0) [10; 20] 1 15).
  - split; reflexivity.
  - vm_compute. split; discriminate.
  - repeat constructor.
  - intros _. split; reflexivity.
Defined.

Lemma Erase_spec_witness :
  represents (layout [10; 20; 30] 1) [10; 20; 30]
  /\ 0 <= 1 < Size (layout [10; 20; 30] 1)
  /\ exists it v',
       Erase (begin (layout [10; 20; 30] 1) + 1) (layout [10; 20; 30] 1) = Ok (it, v')
       /\ Size v' = Size (layout [10; 20; 30] 1) - 1
       /\ (forall (i : nat) y, [10; 20; 30] !! i = Some y -> 1 < Z.of_nat i ->
             Vector_index v' (Z.of_nat i - 1) = Ok y)
       /\ (forall (i : nat) y, [10; 20; 30] !! i = Some y -> Z.of_nat i < 1 ->
             Vector_index v' (Z.of_nat i) = Ok y)
       /\ buffer_ (data_ v') !! Z.to_nat (Size (layout [10; 20; 30] 1) - 1) = Some None
       /\ represents v'
            (take (Z.to_nat 1) [10; 20; 30] ++ drop (S (Z.to_nat 1)) [10; 20; 30]).
Proof.
  split; [split; reflexivity|]. split; [vm_compute; split; [discriminate|reflexivity]|].
  apply (Erase_spec (layout [10; 20; 30] 1) [10; 20; 30] 1).
  - split; reflexivity.
  - vm_compute. split; [discriminate|reflexivity].
Defined.

Lemma Erase_returns_position_witness :
  represents (layout [10; 20; 30] 1) [10; 20; 30]
  /\ 0 <= 1 < Size (layout [10; 20; 30] 1)
  /\ exists v',
       Erase (begin (layout [10; 20; 30] 1) + 1) (layout [10; 20; 30] 1)
       = Ok (begin v' + 1, v')
       /\ (forall y, [10; 20; 30] !! S (Z.to_nat 1) = Some y ->
             Vector_index v' (begin v' + 1) = Ok y)
       /\ (1 = Size (layout [10; 20; 30] 1) - 1 -> begin v' + 1 = end_ v').
Proof.
  split; [split; reflexivity|]. split; [vm_compute; split; [discriminate|reflexivity]|].
  apply (Erase_returns_position (layout [10; 20; 30] 1) [10; 20; 30] 1).
  - split; reflexivity.
  - vm_compute. split; [discriminate|reflexivity].
Defined.

Lemma Insert_Erase_roundtrip_witness :
  represents (layout [10; 20] 0) [10; 20]
  /\ Forall never_throws [15; 10; 20]
  /\ exists it v1 it' v2,
       Insert (begin (layout [10; 20] 0) + 1) 15 (layout [10; 20] 0) = Ok (it, v1)
       /\ Erase it v1 = Ok (it', v2)
       /\ represents v2 [10; 20]
       /\ Size v2 = Size (layout [10; 20] 0).
Proof.
  split; [split; reflexivity|]. split; [repeat constructor|].
  apply (Insert_Erase_roundtrip (layout [10; 20] 0) [10; 20] 1 15).
  - split; reflexivity.
  - vm_compute. split; discriminate.
  - repeat constructor.
  - intros _. split; reflexivity.
Defined.

Lemma PushBack_full_grows_witness :
  represents (layout [10; 20] 0) [10; 20]
  /\ Size (layout [10; 20] 0) = Capacity (layout [10; 20] 0)
  /\ exists v',
       EmplaceBack (Some 30) (layout [10; 20] 0) = Ok (30, v')
       /\ (never_throws 30 ->
           PushBack 30 (layout [10; 20] 0) = Ok v'
           /\ PushBack_rvalue 30 (layout [10; 20] 0) = Ok v')
       /\ Capacity v' = Z.max 1 (2 * Capacity (layout [10; 20] 0))
       /\ Vector_index v' (Size (layout [10; 20] 0)) = Ok 30
       /\ Size v' = Size (layout [10; 20] 0) + 1
       /\ represents v' ([10; 20] ++ [30]).
Proof.
  split; [split; reflexivity|]. split; [reflexivity|].
  apply (PushBack_full_grows (layout [10; 20] 0) [10; 20] 30).
  - split; reflexivity.
  - reflexivity.
  - repeat constructor.
  - split; reflexivity.
Defined.

Lemma Reserve_spec_witness :
  represents (layout [10; 20] 0) [10; 20]
  /\ can_allocate 5
  /\ exists v',
       Reserve 5 (layout [10; 20] 0) = Ok v'
       /\ (5 <= Capacity (layout [10; 20] 0) -> v' = layout [10; 20] 0)
       /\ (Capacity (layout [10; 20] 0) < 5 -> Capacity v' = 5)
       /\ Size v' = Size (layout [10; 20] 0)
       /\ represents v' [10; 20]
       /\ Capacity (layout [10; 20] 0) <= Capacity v'.
Proof.
  split; [split; reflexivity|]. split; [split; reflexivity|].
  apply (Reserve_spec (layout [10; 20] 0) [10; 20] 5).
  - split; reflexivity.
  - repeat constructor.
  - intros _. split; reflexivity.
Defined.

Lemma move_leaves_source_empty_witness :
  [layout [3] 1; layout [1; 2] 0] !! 0%nat = Some (layout [3] 1)
  /\ [layout [3] 1; layout [1; 2] 0] !! 1%nat = Some (layout [1; 2] 0)
  /\ Vector_move_ctor (layout [1; 2] 0) = (layout [1; 2] 0, Vector_default)
  /\ Size (@Vector_default Z) = 0 /\ Capacity (@Vector_default Z) = 0
  /\ buffer_ (data_ (@Vector_default Z)) = []
  /\ (0%nat <> 1%nat ->
      exists st',
        Vector_move_assign 0 1 [layout [3] 1; layout [1; 2] 0] = Some st'
        /\ st' !! 0%nat = Some (layout [1; 2] 0)
        /\ st' !! 1%nat = Some Vector_default
        /\ (forall a, a <> 0%nat -> a <> 1%nat ->
              st' !! a = [layout [3] 1; layout [1; 2] 0] !! a))
  /\ (0%nat = 1%nat ->
      Vector_move_assign 0 1 [layout [3] 1; layout [1; 2] 0]
      = Some [layout [3] 1; layout [1; 2] 0]).
Proof.
  split; [reflexivity|]. split; [reflexivity|].
  apply (move_leaves_source_empty (layout [1; 2] 0)
           [layout [3] 1; layout [1; 2] 0] 0 1 (layout [3] 1) (layout [1; 2] 0));
    reflexivity.
Defined.

Lemma precondition_violations_witness :
  represents (layout [1; 2] 1) [1; 2]
  /\ (forall index, NDEBUG = false -> Size (layout [1; 2] 1) <= index ->
        Vector_index (layout [1; 2] 1) index = AssertFail)
  /\ (Size (layout [1; 2] 1) = 0 -> PopBack (layout [1; 2] 1) = Undefined)
  /\ (forall pos, Size (layout [1; 2] 1) <= pos < 2 ^ SIZE_WIDTH ->
        Erase (begin (layout [1; 2] 1) + pos) (layout [1; 2] 1)
        = (if reversed_range_is_empty
           then let* v' := PopBack (layout [1; 2] 1) in
                Ok (begin (layout [1; 2] 1) + pos, v')
           else Undefined)
        /\ Erase (begin (layout [1; 2] 1) + pos) (layout [1; 2] 1) <> AssertFail)
  /\ (forall pos args, Size (layout [1; 2] 1) < pos < 2 ^ SIZE_WIDTH ->
        match Emplace (begin (layout [1; 2] 1) + pos) args (layout [1; 2] 1) with
        | Ok _ => False
        | AssertFail =>
            NDEBUG = false /\ reversed_range_is_empty = true
            /\ Size (layout [1; 2] 1) < Capacity (layout [1; 2] 1) <= pos
        | Throw _ | Undefined => True
        end)
  /\ (forall pos tmp l, last [1; 2] = Some l -> move_throws l = false ->
        Size (layout [1; 2] 1) < Capacity (layout [1; 2] 1) <= pos ->
        pos < 2 ^ SIZE_WIDTH ->
        Emplace (begin (layout [1; 2] 1) + pos) (Some tmp) (layout [1; 2] 1)
        = if reversed_range_is_empty && negb NDEBUG then AssertFail else Undefined).
Proof.
  split; [split; reflexivity|].
  apply (precondition_violations (layout [1; 2] 1) [1; 2]).
  split; reflexivity.
Defined.

End Examples.

(** * The further properties on [Vector<int>] *)

Section FurtherExamples.
Existing Instance debug_platform.

Lemma Vector_new_spec_witness :
  0 <= 3
  /\ exists v,
       Vector_new 3 = Ok v
       /\ Size v = 3 /\ Capacity v = 3
       /\ represents v (replicate (Z.to_nat 3) value_init)
       /\ (forall i, 0 <= i < 3 -> Vector_index v i = Ok value_init).
Proof.
  split; [discriminate|].
  apply (Vector_new_spec 3); [discriminate | intros _; split; reflexivity].
Defined.

Lemma Vector_copy_ctor_spec_witness :
  represents (layout [10; 20] 3) [10; 20]
  /\ (Forall (fun x => copy_throws x = false) [10; 20] ->
      exists v,
        Vector_copy_ctor (layout [10; 20] 3) = Ok v
        /\ represents v [10; 20]
        /\ Size v = Size (layout [10; 20] 3)
        /\ Capacity v = Size (layout [10; 20] 3))
  /\ (Exists (fun x => copy_throws x = true) [10; 20] ->
      Vector_copy_ctor (layout [10; 20] 3) = Throw tt).
Proof.
  split; [split; reflexivity|].
  apply (Vector_copy_ctor_spec (layout [10; 20] 3) [10; 20]).
  - split; reflexivity.
  - intros _. split; reflexivity.
Defined.

Lemma Vector_copy_assign_spec_witness :
  represents (layout [1; 2; 3] 0) [1; 2; 3]
  /\ represents (layout [7; 8] 1) [7; 8]
  /\ (0%nat = 1%nat ->
      Vector_copy_assign 0 1 [layout [1; 2; 3] 0; layout [7; 8] 1]
      = Ok [layout [1; 2; 3] 0; layout [7; 8] 1])
  /\ (0%nat <> 1%nat ->
      exists vt',
        Vector_copy_assign 0 1 [layout [1; 2; 3] 0; layout [7; 8] 1]
        = Ok (<[0%nat := vt']> [layout [1; 2; 3] 0; layout [7; 8] 1])
        /\ represents vt' [7; 8]
        /\ Capacity vt'
           = (if Capacity (layout [1; 2; 3] 0) <? Size (layout [7; 8] 1)
              then Size (layout [7; 8] 1) else Capacity (layout [1; 2; 3] 0))
        /\ (<[0%nat := vt']> [layout [1; 2; 3] 0; layout [7; 8] 1]) !! 1%nat
           = Some (layout [7; 8] 1)).
Proof.
  split; [split; reflexivity|]. split; [split; reflexivity|].
  apply (Vector_copy_assign_spec [layout [1; 2; 3] 0; layout [7; 8] 1] 0 1
           (layout [1; 2; 3] 0) (layout [7; 8] 1) [1; 2; 3] [7; 8]).
  - reflexivity.
  - reflexivity.
  - split; reflexivity.
  - split; reflexivity.
  - repeat constructor.
  - intros Hlt. discriminate Hlt.
Defined.

Lemma PopBack_spec_witness :
  represents (layout ([10; 20] ++ [30]) 1) ([10; 20] ++ [30])
  /\ exists v',
       PopBack (layout ([10; 20] ++ [30]) 1) = Ok v'
       /\ Size v' = Size (layout ([10; 20] ++ [30]) 1) - 1
       /\ Capacity v' = Capacity (layout ([10; 20] ++ [30]) 1)
       /\ represents v' [10; 20]
       /\ (forall (i : nat) y, [10; 20] !! i = Some y -> Vector_index v' (Z.of_nat i) = Ok y)
       /\ buffer_ (data_ v') !! length [10; 20] = Some None.
Proof.
  split; [split; reflexivity|].
  apply (PopBack_spec (layout ([10; 20] ++ [30]) 1) [10; 20] 30).
  split; reflexivity.
Defined.

Lemma Vector_index_spec_witness :
  represents (layout [10; 20] 1) [10; 20]
  /\ (forall (i : nat) x, [10; 20] !! i = Some x ->
        Vector_index (layout [10; 20] 1) (Z.of_nat i) = Ok x)
  /\ (NDEBUG = true -> forall index, Size (layout [10; 20] 1) <= index ->
        Vector_index (layout [10; 20] 1) index = Undefined).
Proof.
  split; [split; reflexivity|].
  apply (Vector_index_spec (layout [10; 20] 1) [10; 20]).
  split; reflexivity.
Defined.

Lemma Reserve_then_PushBack_keeps_capacity_witness :
  represents (layout [1] 0) [1]
  /\ Forall never_throws ([1] ++ [2; 3])
  /\ Capacity (layout [1] 0) < 4
  /\ can_allocate 4
  /\ exists v1 v',
       Reserve 4 (layout [1] 0) = Ok v1
       /\ PushBack_each [2; 3] v1 = Ok v'
       /\ represents v' ([1] ++ [2; 3])
       /\ Capacity v' = 4.
Proof.
  split; [split; reflexivity|]. split; [repeat constructor|].
  split; [reflexivity|]. split; [split; reflexivity|].
  apply (Reserve_then_PushBack_keeps_capacity (layout [1] 0) [1] [2; 3] 4).
  - split; reflexivity.
  - repeat constructor.
  - reflexivity.
  - split; reflexivity.
  - discriminate.
Defined.

Lemma PushBack_each_from_empty_witness :
  [1; 2; 3] <> []
  /\ Forall never_throws [1; 2; 3]
  /\ exists v',
       PushBack_each [1; 2; 3] Vector_default = Ok v'
       /\ represents v' [1; 2; 3]
       /\ Size v' <= Capacity v' < 2 * Size v'
       /\ exists k : nat, Capacity v' = 2 ^ Z.of_nat k.
Proof.
  split; [discriminate|]. split; [repeat constructor|].
  apply (PushBack_each_from_empty [1; 2; 3]).
  - discriminate.
  - repeat constructor.
  - intros n Hn. split; [unfold SIZE_WIDTH; simpl in *; lia|].
    apply Z.leb_le. simpl in *. lia.
Defined.

Lemma Reserve_failure_leaves_vector_witness :
  @represents Z (layout [7; 13] 0) [7; 13]
  /\ @Capacity Z (layout [7; 13] 0) < 4
  /\ (@operator_new_ok debug_platform (to_size_t (4 * @sizeof Z throwing_elem)) = false ->
      @Reserve Z throwing_elem debug_platform 4 (layout [7; 13] 0) = Throw (layout [7; 13] 0))
  /\ (@can_allocate Z throwing_elem debug_platform 4 ->
      @is_nothrow_move_constructible Z throwing_elem
        || negb (@is_copy_constructible Z throwing_elem) = false ->
      Exists (fun x => @copy_throws Z throwing_elem x = true) [7; 13] ->
      @Reserve Z throwing_elem debug_platform 4 (layout [7; 13] 0) = Throw (layout [7; 13] 0)).
Proof.
  split; [split; reflexivity|]. split; [reflexivity|].
  apply (@Reserve_failure_leaves_vector Z throwing_elem debug_platform
           (layout [7; 13] 0) [7; 13] 4).
  - split; reflexivity.
  - reflexivity.
Defined.

Lemma Emplace_relocation_failure_witness :
  @represents Z (layout [7; 13] 0) [7; 13]
  /\ @Size Z (layout [7; 13] 0) = @Capacity Z (layout [7; 13] 0)
  /\ @can_allocate Z throwing_elem debug_platform (Z.max 1 (2 * @Size Z (layout [7; 13] 0)))
  /\ Exists (fun y => @relocation_throws Z throwing_elem y = true) [7; 13]
  /\ @Emplace Z throwing_elem debug_platform 1 (Some 5) (layout [7; 13] 0) = Undefined.
Proof.
  split; [split; reflexivity|]. split; [reflexivity|]. split; [split; reflexivity|].
  split; [right; left; reflexivity|].
  apply (@Emplace_relocation_failure Z throwing_elem debug_platform
           (layout [7; 13] 0) [7; 13] 1 5).
  - split; reflexivity.
  - reflexivity.
  - vm_compute. split; discriminate.
  - split; reflexivity.
  - right. left. reflexivity.
Defined.

Lemma Resize_shrink_witness :
  represents (layout [1; 2; 3] 0) [1; 2; 3]
  /\ 0 <= 1 <= Size (layout [1; 2; 3] 0)
  /\ exists v',
       Resize 1 (layout [1; 2; 3] 0) = Ok v'
       /\ represents v' (take (Z.to_nat 1) [1; 2; 3])
       /\ Capacity v' = Capacity (layout [1; 2; 3] 0).
Proof.
  split; [split; reflexivity|]. split; [vm_compute; split; discriminate|].
  apply (Resize_shrink (layout [1; 2; 3] 0) [1; 2; 3] 1).
  - split; reflexivity.
  - vm_compute. split; discriminate.
Defined.

Lemma Resize_empty_beyond_capacity_witness :
  represents (@Vector_default Z) []
  /\ Capacity (@Vector_default Z) < 5
  /\ can_allocate 5
  /\ Resize 5 Vector_default = Ok (layout (replicate (Z.to_nat 5) value_init) 0).
Proof.
  split; [split; reflexivity|]. split; [reflexivity|]. split; [split; reflexivity|].
  apply (Resize_empty_beyond_capacity Vector_default 5).
  - split; reflexivity.
  - reflexivity.
  - split; reflexivity.
Defined.

Lemma Resize_grow_within_capacity_witness :
  represents (layout [1; 2] 2) [1; 2]
  /\ Size (layout [1; 2] 2) < 3 <= Capacity (layout [1; 2] 2)
  /\ Resize 3 (layout [1; 2] 2) = Undefined.
Proof.
  split; [split; reflexivity|]. split; [vm_compute; split; [reflexivity|discriminate]|].
  apply (Resize_grow_within_capacity (layout [1; 2] 2) [1; 2] 3).
  - split; reflexivity.
  - vm_compute. split; [reflexivity|discriminate].
Defined.

Lemma Resize_grow_beyond_capacity_witness :
  represents (layout [1; 2] 0) [1; 2]
  /\ [1; 2] <> []
  /\ Capacity (layout [1; 2] 0) < 3
  /\ can_allocate 3
  /\ exists v',
       Resize 3 (layout [1; 2] 0) = Ok v'
       /\ Size v' = 3
       /\ buffer_ (data_ v') !! 0%nat = Some (Some value_init)
       /\ buffer_ (data_ v') !! Z.to_nat (3 - 1) = Some None.
Proof.
  split; [split; reflexivity|]. split; [discriminate|]. split; [reflexivity|].
  split; [split; reflexivity|].
  apply (Resize_grow_beyond_capacity (layout [1; 2] 0) [1; 2] 3).
  - split; reflexivity.
  - discriminate.
  - repeat constructor.
  - reflexivity.
  - split; reflexivity.
Defined.

Lemma RawMemory_new_overflow_witness :
  0 < 2 ^ 62
  /\ 2 ^ SIZE_WIDTH <= 2 ^ 62 * sizeof
  /\ operator_new_ok (to_size_t (2 ^ 62 * sizeof)) = true
  /\ exists m : RawMemory Z,
       RawMemory_new (2 ^ 62) = Ok m
       /\ RawMemory_Capacity m = 2 ^ 62
       /\ Z.of_nat (length (buffer_ m)) < 2 ^ 62.
Proof.
  split; [reflexivity|]. split; [vm_compute; discriminate|]. split; [reflexivity|].
  apply (RawMemory_new_overflow (2 ^ 62)).
  - reflexivity.
  - vm_compute. discriminate.
  - reflexivity.
Defined.

Lemma Erase_last_is_PopBack_witness :
  represents (layout [1; 2; 3] 1) [1; 2; 3]
  /\ 0 < Size (layout [1; 2; 3] 1)
  /\ exists v',
       PopBack (layout [1; 2; 3] 1) = Ok v'
       /\ Erase (end_ (layout [1; 2; 3] 1) - 1) (layout [1; 2; 3] 1) = Ok (end_ v', v').
Proof.
  split; [split; reflexivity|]. split; [reflexivity|].
  apply (Erase_last_is_PopBack (layout [1; 2; 3] 1) [1; 2; 3]).
  - split; reflexivity.
  - reflexivity.
Defined.

Lemma Emplace_capacity_witness :
  represents (layout [10; 20] 0) [10; 20]
  /\ 0 <= 1 <= Size (layout [10; 20] 0)
  /\ exists it v',
       Emplace (begin (layout [10; 20] 0) + 1) (Some 15) (layout [10; 20] 0) = Ok (it, v')
       /\ (Size (layout [10; 20] 0) < Capacity (layout [10; 20] 0) ->
           Capacity v' = Capacity (layout [10; 20] 0))
       /\ (Size (layout [10; 20] 0) = Capacity (layout [10; 20] 0) ->
           Capacity v' = Z.max 1 (2 * Capacity (layout [10; 20] 0)))
       /\ Size v' <= Capacity v'.
Proof.
  split; [split; reflexivity|]. split; [vm_compute; split; discriminate|].
  apply (Emplace_capacity (layout [10; 20] 0) [10; 20] 1 15).
  - split; reflexivity.
  - vm_compute. split; discriminate.
  - repeat constructor.
  - intros _. split; reflexivity.
Defined.

Lemma Vector_copy_assign_failure_witness :
  @represents Z (layout [1] 0) [1]
  /\ @represents Z (layout [7; 13] 0) [7; 13]
  /\ Exists (fun y => @copy_throws Z throwing_elem y = true) [7; 13]
  /\ @Vector_copy_assign Z throwing_elem debug_platform 0 1 [layout [1] 0; layout [7; 13] 0]
     = Throw [layout [1] 0; layout [7; 13] 0].
Proof.
  split; [split; reflexivity|]. split; [split; reflexivity|].
  split; [right; left; reflexivity|].
  apply (@Vector_copy_assign_failure Z throwing_elem debug_platform
           [layout [1] 0; layout [7; 13] 0] 0 1 (layout [1] 0) (layout [7; 13] 0)
           [1] [7; 13]).
  - reflexivity.
  - reflexivity.
  - split; reflexivity.
  - split; reflexivity.
  - discriminate.
  - reflexivity.
  - split; reflexivity.
  - right. left. reflexivity.
Defined.

End FurtherExamples.
